(** * kvdb: the badger-backed key-value store ([store/badger/badger.go])

    A shallow embedding of [Store.Put], [Store.FlushPuts], [Store.Get],
    [Store.BatchGet], [Store.Scan] and [Store.Prefix], together with the
    parts of their collaborators they rely on: byte-string order
    ([bytes.Compare], [bytes.HasPrefix]), the storage engine (badger's
    [DB], [Txn], [WriteBatch] and iterator), the compressor and the
    streaming iterator of package [store]. *)

From Stdlib Require Import String.
From Stdlib Require Import List ZArith NArith Lia Bool.
From Stdlib Require Strings.Byte.
Import ListNotations.

Local Open Scope Z_scope.

(** ** Byte strings *)

Definition bytes := list Byte.byte.

(** Unsigned, lexicographic three-way comparison of two byte strings. *)
Fixpoint bytes_cmp (a b : bytes) : comparison :=
  match a, b with
  | [], [] => Eq
  | [], _ :: _ => Lt
  | _ :: _, [] => Gt
  | x :: a', y :: b' =>
      match N.compare (Byte.to_N x) (Byte.to_N y) with
      | Eq => bytes_cmp a' b'
      | c => c
      end
  end.

(** [bytes.Compare]: -1, 0 or +1. *)
Definition Compare (a b : bytes) : Z :=
  match bytes_cmp a b with
  | Lt => -1
  | Eq => 0
  | Gt => 1
  end.

Definition byte_eqb (x y : Byte.byte) : bool :=
  N.eqb (Byte.to_N x) (Byte.to_N y).

(** [bytes.HasPrefix(s, prefix)]. *)
Fixpoint HasPrefix (s prefix : bytes) : bool :=
  match prefix, s with
  | [], _ => true
  | _ :: _, [] => false
  | p :: prefix', x :: s' => byte_eqb x p && HasPrefix s' prefix'
  end.

(** Go's [int] on the 64-bit targets: [count++] wraps around. *)
Definition int_wrap (z : Z) : Z := (z + 2 ^ 63) mod 2 ^ 64 - 2 ^ 63.
Definition int_incr (count : Z) : Z := int_wrap (count + 1).
Definition is_int (z : Z) : Prop := - 2 ^ 63 <= z < 2 ^ 63.

(** ** Errors and fallible results *)

Inductive ctx_error : Type :=
| Canceled            (* context.Canceled *)
| DeadlineExceeded.   (* context.DeadlineExceeded *)

(** The values of Go's [error] the store can see. *)
Inductive error : Type :=
| ErrNotFound                        (* store.ErrNotFound *)
| ErrKeyNotFound                     (* badger.ErrKeyNotFound *)
| ErrTxnTooBig                       (* badger.ErrTxnTooBig *)
| ErrBadger (code : nat)             (* any other error of the engine *)
| ErrCodec (code : nat)              (* an error of the compressor *)
| ErrContext (c : ctx_error)         (* ctx.Err() *)
| ErrWrap (msg : string) (e : error) (* fmt.Errorf("msg: %w", e) *).

Inductive result (A : Type) : Type :=
| Ok (a : A)
| Err (e : error).
Arguments Ok {A} a.
Arguments Err {A} e.

Definition is_ErrKeyNotFound (e : error) : bool :=
  match e with ErrKeyNotFound => true | _ => false end.

(** ** Compressor *)

(** Modelled from the spec: the interface [store.Compressor] (package
    [store] is not among the sources).  [Compress] cannot fail;
    [Decompress] can, with an error of the codec's own ([inr c]). *)
Record Compressor : Type := {
  Compress : bytes -> bytes;
  codec : bytes -> bytes + nat
}.

Definition Decompress (c : Compressor) (b : bytes) : result bytes :=
  match codec c b with
  | inl v => Ok v
  | inr n => Err (ErrCodec n)
  end.

(** Modelled from the spec: the codec contract,
    [Decompress(Compress(v)) == v] for all [v]. *)
Definition round_trips (c : Compressor) : Prop :=
  forall v, Decompress c (Compress c v) = Ok v.

(** ** The storage engine *)

Record Entry : Type := NewEntry { Key : bytes; Value : bytes }.

(** The committed contents: (key, stored value) pairs in strictly
    ascending key order, one pair per key. *)
Definition table := list (bytes * bytes).

(** The engine's behaviour the store cannot control.  Each field answers
    one call of the engine that returns an [error] in the source; [Some c]
    makes the call fail with [ErrBadger c]. *)
Record Engine : Type := {
  (* SetEntry refuses the entry itself (invalid key, entry too large) *)
  entry_fault : Entry -> option nat;
  (* staging the entry on top of the pending ones exceeds what one
     transaction can hold: SetEntry answers ErrTxnTooBig *)
  txn_full : list Entry -> Entry -> bool;
  (* WriteBatch.Flush fails *)
  flush_fault : list Entry -> option nat;
  (* Txn.Get fails for a reason other than the key being absent *)
  get_fault : bytes -> option nat;
  (* Item.ValueCopy fails *)
  value_fault : bytes -> option nat
}.

Record DB : Type := {
  engine : Engine;
  contents : table
}.

Fixpoint lookup (k : bytes) (t : table) : option bytes :=
  match t with
  | [] => None
  | (k', v') :: t' =>
      match bytes_cmp k k' with
      | Eq => Some v'
      | _ => lookup k t'
      end
  end.

(** Writing [k := v] into the ordered table: a new key is inserted at its
    place, an existing key gets the new value. *)
Fixpoint upsert (k v : bytes) (t : table) : table :=
  match t with
  | [] => [(k, v)]
  | (k', v') :: t' =>
      match bytes_cmp k k' with
      | Lt => (k, v) :: t
      | Eq => (k, v) :: t'
      | Gt => (k', v') :: upsert k v t'
      end
  end.

(** Committing a batch applies its entries in staging order. *)
Definition commit (pending : list Entry) (t : table) : table :=
  fold_left (fun t e => upsert (Key e) (Value e) t) pending t.

(** *** Write batches *)

Record WriteBatch : Type := { pending : list Entry }.

Definition NewWriteBatch (db : DB) : WriteBatch := {| pending := [] |}.

(** [wb.SetEntry(e)]: the batch afterwards, and the error if any.  A
    refused entry is not staged.  The batch is taken at its interface: an
    entry that does not fit on top of the staged ones is answered with
    [ErrTxnTooBig] and left to the caller.  (badger's own batch first
    commits the staged entries by itself and stages the entry in a new
    transaction, answering [ErrTxnTooBig] only when that fails too; for an
    entry that fits an empty transaction, the table and the staged entries
    are then what the flush and retry of [Put] leave.) *)
Definition SetEntry (db : DB) (wb : WriteBatch) (e : Entry)
  : WriteBatch * option error :=
  match entry_fault (engine db) e with
  | Some c => (wb, Some (ErrBadger c))
  | None =>
      if txn_full (engine db) (pending wb) e
      then (wb, Some ErrTxnTooBig)
      else ({| pending := pending wb ++ [e] |}, None)
  end.

(** [wb.Flush()]: commits every staged entry as a unit.  (What a batch
    is worth after a failed flush is the engine's affair: badger's cannot
    be used again.) *)
Definition Flush (db : DB) (wb : WriteBatch) : DB * option error :=
  match flush_fault (engine db) (pending wb) with
  | Some c => (db, Some (ErrBadger c))
  | None =>
      ({| engine := engine db; contents := commit (pending wb) (contents db) |},
       None)
  end.

(** *** Read-only transactions *)

Record Txn : Type := { txn_engine : Engine; snapshot : table }.

Record Item : Type := { item_key : bytes; item_value : bytes }.

(** [db.View(fn)] runs [fn] on a snapshot and returns what it returns. *)
Definition View {A : Type} (db : DB) (fn : Txn -> A) : A :=
  fn {| txn_engine := engine db; snapshot := contents db |}.

Definition txn_Get (txn : Txn) (key : bytes) : result Item :=
  match get_fault (txn_engine txn) key with
  | Some c => Err (ErrBadger c)
  | None =>
      match lookup key (snapshot txn) with
      | Some v => Ok {| item_key := key; item_value := v |}
      | None => Err ErrKeyNotFound
      end
  end.

Definition ValueCopy (txn : Txn) (item : Item) : result bytes :=
  match value_fault (txn_engine txn) (item_key item) with
  | Some c => Err (ErrBadger c)
  | None => Ok (item_value item)
  end.

Definition KeyCopy (item : Item) : bytes := item_key item.

(** The engine's iterator with the default options (forward, latest
    version of each key): a cursor is the items from its position on. *)
Definition cursor := list (bytes * bytes).

Definition NewIterator (txn : Txn) : cursor := snapshot txn.

(** [it.Seek(key)]: the first position whose key is not below [key]. *)
Fixpoint Seek (key : bytes) (c : cursor) : cursor :=
  match c with
  | [] => []
  | (k, v) :: c' =>
      match bytes_cmp k key with
      | Lt => Seek key c'
      | _ => c
      end
  end.

(** [it.ValidForPrefix(prefix)]: valid, and the key at the cursor has the
    prefix. *)
Definition ValidForPrefix (prefix : bytes) (c : cursor) : bool :=
  match c with
  | [] => false
  | (k, _) :: _ => HasPrefix k prefix
  end.

(** ** The caller's context and the streaming iterator *)

(** A cancellation token.  The producer's clock is the number of items
    it has pushed: [cancel_at = Some n] is a token that the caller
    triggers once [n] items have been pushed ([Some 0]: triggered before
    the call), [None] one that is never triggered. *)
Record Context : Type := {
  cancel_at : option nat;
  cancel_cause : ctx_error
}.

Definition Background : Context :=
  {| cancel_at := None; cancel_cause := Canceled |}.

(** [ctx.Err()] when [pushed] items have been pushed. *)
Definition ctx_Err (ctx : Context) (pushed : nat) : option error :=
  match cancel_at ctx with
  | Some n =>
      if (n <=? pushed)%nat then Some (ErrContext (cancel_cause ctx)) else None
  | None => None
  end.

Record KV : Type := { kv_Key : bytes; kv_Value : bytes }.

(** What a producer pushes into an iterator. *)
Inductive event : Type :=
| EvItem (kv : KV)
| EvError (e : error)
| EvFinished.

Definition is_item (ev : event) : bool :=
  match ev with EvItem _ => true | _ => false end.

Definition is_terminal (ev : event) : bool := negb (is_item ev).

(** Modelled from the spec: [store.Iterator] (package [store] is not among
    the sources), seen from the producer: the events pushed so far, in
    the order they were pushed, and the caller's context.  [polls] counts
    the producer's calls of [Context().Err()]. *)
Record Iterator : Type := {
  it_ctx : Context;
  pushed : list event;
  polls : nat
}.

Definition NewStoreIterator (ctx : Context) : Iterator :=
  {| it_ctx := ctx; pushed := []; polls := 0 |}.

Definition push (ev : event) (it : Iterator) : Iterator :=
  {| it_ctx := it_ctx it; pushed := pushed it ++ [ev]; polls := polls it |}.

Definition PushItem (kv : KV) (it : Iterator) : Iterator := push (EvItem kv) it.
Definition PushError (e : error) (it : Iterator) : Iterator := push (EvError e) it.
Definition PushFinished (it : Iterator) : Iterator := push EvFinished it.

Definition items_pushed (it : Iterator) : nat :=
  length (filter is_item (pushed it)).

(** [it.Context().Err()]. *)
Definition Context_Err (it : Iterator) : Iterator * option error :=
  ({| it_ctx := it_ctx it; pushed := pushed it; polls := S (polls it) |},
   ctx_Err (it_ctx it) (items_pushed it)).

(** ** The store *)

Record Store : Type := {
  db : DB;
  writeBatch : option WriteBatch;   (* nil until the first Put *)
  compressor : Compressor
}.

Definition with_batch (s : Store) (d : DB) (wb : option WriteBatch) : Store :=
  {| db := d; writeBatch := wb; compressor := compressor s |}.

(** [Store.Put]: the store afterwards and the returned error. *)
Definition Put (s : Store) (key value : bytes) : Store * option error :=
  let wb0 :=
    match writeBatch s with
    | None => NewWriteBatch (db s)
    | Some wb => wb
    end in
  let value := Compress (compressor s) value in
  let (wb1, err) := SetEntry (db s) wb0 (NewEntry key value) in
  match err with
  | Some ErrTxnTooBig =>
      match Flush (db s) wb1 with
      | (db1, Some err) => (with_batch s db1 (Some wb1), Some err)
      | (db1, None) =>
          let (wb2, err) := SetEntry db1 (NewWriteBatch db1) (NewEntry key value) in
          match err with
          | Some err =>
              (with_batch s db1 (Some wb2), Some (ErrWrap "after txn too big"%string err))
          | None => (with_batch s db1 (Some wb2), None)
          end
      end
  | _ => (with_batch s (db s) (Some wb1), None)
  end.

(** [Store.FlushPuts]. *)
Definition FlushPuts (s : Store) : Store * option error :=
  match writeBatch s with
  | None => (s, None)
  | Some wb =>
      match Flush (db s) wb with
      | (db1, Some err) => (with_batch s db1 (Some wb), Some err)
      | (db1, None) => (with_batch s db1 (Some (NewWriteBatch db1)), None)
      end
  end.

(** [Store.Get]. *)
Definition Get (s : Store) (key : bytes) : result bytes :=
  View (db s) (fun txn =>
    match txn_Get txn key with
    | Err err =>
        if is_ErrKeyNotFound err then Err ErrNotFound else Err err
    | Ok item =>
        match ValueCopy txn item with
        | Err err => Err err
        | Ok value =>
            match Decompress (compressor s) value with
            | Err err => Err err
            | Ok value => Ok value
            end
        end
    end).

(** The body of the [for _, key := range keys] loop of [Store.BatchGet]. *)
Fixpoint BatchGet_loop (s : Store) (txn : Txn) (keys : list bytes) (kr : Iterator)
  : Iterator * option error :=
  match keys with
  | [] => (kr, None)
  | key :: keys' =>
      match txn_Get txn key with
      | Err err => (kr, Some err)
      | Ok item =>
          match ValueCopy txn item with
          | Err err => (kr, Some err)
          | Ok value =>
              match Decompress (compressor s) value with
              | Err err => (kr, Some err)
              | Ok value =>
                  let kr := PushItem {| kv_Key := KeyCopy item; kv_Value := value |} kr in
                  BatchGet_loop s txn keys' kr
              end
          end
      end
  end.

(** What the producer does after [db.View] returned. *)
Definition terminate (r : Iterator * option error) : Iterator :=
  match r with
  | (it, Some err) => PushError err it
  | (it, None) => PushFinished it
  end.

(** [Store.BatchGet]: the iterator once its producer has returned. *)
Definition BatchGet (s : Store) (ctx : Context) (keys : list bytes) : Iterator :=
  let kr := NewStoreIterator ctx in
  terminate (View (db s) (fun txn => BatchGet_loop s txn keys kr)).

(** The [for] loop of [Store.Scan], from the cursor position [bit] on:
    the condition [bit.Valid() && bytes.Compare(key, exclusiveEnd) == -1]
    (an exhausted cursor is not valid), the body, and [bit.Next()] as the
    recursive call on the rest of the cursor. *)
Fixpoint Scan_loop (s : Store) (txn : Txn) (exclusiveEnd : bytes) (limit : Z)
    (bit : cursor) (count : Z) (sit : Iterator) : Iterator * option error :=
  match bit with
  | [] => (sit, None)
  | (k, v) :: bit' =>
      if Compare k exclusiveEnd =? -1 then
        let item := {| item_key := k; item_value := v |} in
        let count := int_incr count in
        match Context_Err sit with
        | (sit, Some err) => (sit, Some err)
        | (sit, None) =>
            match ValueCopy txn item with
            | Err err => (sit, Some err)
            | Ok value =>
                match Decompress (compressor s) value with
                | Err err => (sit, Some err)
                | Ok value =>
                    let sit := PushItem {| kv_Key := KeyCopy item; kv_Value := value |} sit in
                    if (count =? limit) && (0 <? limit) then (sit, None)
                    else Scan_loop s txn exclusiveEnd limit bit' count sit
                end
            end
        end
      else (sit, None)
  end.

(** [Store.Scan]. *)
Definition Scan (s : Store) (ctx : Context) (start exclusiveEnd : bytes) (limit : Z)
  : Iterator :=
  let sit := NewStoreIterator ctx in
  terminate (View (db s) (fun txn =>
    let bit := NewIterator txn in
    Scan_loop s txn exclusiveEnd limit (Seek start bit) 0 sit)).

(** The [for] loop of [Store.Prefix]. *)
Fixpoint Prefix_loop (s : Store) (txn : Txn) (prefix : bytes)
    (it : cursor) (count : Z) (kr : Iterator) : Iterator * option error :=
  match it with
  | [] => (kr, None)
  | (k, v) :: it' =>
      if ValidForPrefix prefix it then
        let item := {| item_key := k; item_value := v |} in
        let count := int_incr count in
        match Context_Err kr with
        | (kr, Some err) => (kr, Some err)
        | (kr, None) =>
            let key := KeyCopy item in
            match ValueCopy txn item with
            | Err err => (kr, Some err)
            | Ok value =>
                match Decompress (compressor s) value with
                | Err err => (kr, Some err)
                | Ok value =>
                    let kr := PushItem {| kv_Key := key; kv_Value := value |} kr in
                    Prefix_loop s txn prefix it' count kr
                end
            end
        end
      else (kr, None)
  end.

(** [Store.Prefix]. *)
Definition Prefix (s : Store) (ctx : Context) (prefix : bytes) : Iterator :=
  let kr := NewStoreIterator ctx in
  terminate (View (db s) (fun txn =>
    let it := NewIterator txn in
    Prefix_loop s txn prefix (Seek prefix it) 0 kr)).

(** ** Specification vocabulary *)

(** The batch [Put] stages into. *)
Definition current_batch (s : Store) : WriteBatch :=
  match writeBatch s with
  | None => NewWriteBatch (db s)
  | Some wb => wb
  end.

Definition bytes_ltb (a b : bytes) : bool :=
  match bytes_cmp a b with Lt => true | _ => false end.

Definition bytes_leb (a b : bytes) : bool :=
  match bytes_cmp a b with Gt => false | _ => true end.

(** [start <= k < exclusiveEnd]. *)
Definition in_range (start exclusiveEnd k : bytes) : bool :=
  bytes_leb start k && bytes_ltb k exclusiveEnd.

(** Keys in strictly ascending order. *)
Inductive ascending : list bytes -> Prop :=
| ascending_nil : ascending []
| ascending_cons k ks :
    Forall (fun k' => bytes_cmp k k' = Lt) ks -> ascending ks ->
    ascending (k :: ks).

Definition sorted (t : table) : Prop := ascending (map fst t).

(** The stored table [t] holds the pairs [kvs]: same keys in the same
    order, each stored value decompressing to the pair's value. *)
Definition holds (c : Compressor) (t : table) (kvs : list KV) : Prop :=
  Forall2 (fun st kv => fst st = kv_Key kv /\ Decompress c (snd st) = Ok (kv_Value kv))
          t kvs.

(** The engine copies every value it is asked for. *)
Definition values_ok (e : Engine) : Prop :=
  forall k, value_fault e k = None.

(** Every stored value is one the codec decompresses. *)
Definition decodable (c : Compressor) (t : table) : Prop :=
  Forall (fun st => exists v, Decompress c (snd st) = Ok v) t.

(** The invariant of a store: the table is in key order, and the values
    in the table and in the batch decompress. *)
Definition store_ok (s : Store) : Prop :=
  sorted (contents (db s)) /\
  decodable (compressor s) (contents (db s)) /\
  Forall (fun e => exists v, Decompress (compressor s) (Value e) = Ok v)
         (pending (current_batch s)).

(** [limit > 0]: the first [limit] elements; [limit <= 0]: all of them. *)
Definition up_to {A : Type} (limit : Z) (l : list A) : list A :=
  if 0 <? limit then firstn (Z.to_nat limit) l else l.

(** The longest initial segment whose elements all satisfy [f]. *)
Fixpoint take_while {A : Type} (f : A -> bool) (l : list A) : list A :=
  match l with
  | [] => []
  | x :: l' => if f x then x :: take_while f l' else []
  end.

(** What is left of [limit] after [count] items: the part of [l] the
    loop of [Scan] still pushes. *)
Definition budget {A : Type} (limit count : Z) (l : list A) : list A :=
  if 0 <? limit then firstn (Z.to_nat (limit - count)) l else l.

(** An event log with exactly one terminal event, in last position. *)
Definition one_terminal_last (log : list event) : Prop :=
  exists kvs t, log = map EvItem kvs ++ [t] /\ is_terminal t = true.


(** Modelled from the spec: [prefix_incremented], the smallest key
    strictly greater than every key sharing the prefix: the prefix
    without its trailing 0xFF bytes, its last byte incremented.  There is
    none for a prefix made of 0xFF bytes only. *)
Fixpoint prefix_incremented (p : bytes) : option bytes :=
  match p with
  | [] => None
  | x :: p' =>
      match prefix_incremented p' with
      | Some e' => Some (x :: e')
      | None =>
          match Byte.of_N (Byte.to_N x + 1) with
          | Some x' => Some [x']
          | None => None
          end
      end
  end.

(** One point read of [BatchGet]'s loop body. *)
Definition read_value (s : Store) (txn : Txn) (key : bytes) : result bytes :=
  match txn_Get txn key with
  | Err err => Err err
  | Ok item =>
      match ValueCopy txn item with
      | Err err => Err err
      | Ok value => Decompress (compressor s) value
      end
  end.

(** Key [k] is stored and reading it gives [v]. *)
Definition present (s : Store) (k v : bytes) : Prop :=
  get_fault (engine (db s)) k = None /\
  value_fault (engine (db s)) k = None /\
  exists c, lookup k (contents (db s)) = Some c /\
            Decompress (compressor s) c = Ok v.

Definition view_of (s : Store) : Txn :=
  {| txn_engine := engine (db s); snapshot := contents (db s) |}.

Definition mkKVs (keys vals : list bytes) : list KV :=
  map (fun kv => {| kv_Key := fst kv; kv_Value := snd kv |}) (combine keys vals).

(** ** A small store to run the operations on *)

(** A codec that tags the value with a leading 0x01 byte. *)
Definition tag_compressor : Compressor :=
  {| Compress := fun v => Byte.x01 :: v;
     codec := fun b =>
       match b with
       | Byte.x01 :: v => inl v
       | _ => inr 1%nat
       end |}.

(** An engine that refuses the empty key, holds at most two entries per
    transaction and otherwise never fails. *)
Definition small_engine : Engine :=
  {| entry_fault := fun e => match Key e with [] => Some 7%nat | _ => None end;
     txn_full := fun staged _ => (2 <=? length staged)%nat;
     flush_fault := fun _ => None;
     get_fault := fun _ => None;
     value_fault := fun _ => None |}.

Definition key_a : bytes := [Byte.x61].
Definition key_ab : bytes := [Byte.x61; Byte.x62].
Definition key_ac : bytes := [Byte.x61; Byte.x63].
Definition key_b : bytes := [Byte.x62].
Definition key_c : bytes := [Byte.x63].
Definition key_d : bytes := [Byte.x64].
Definition val_1 : bytes := [Byte.x31].
Definition val_2 : bytes := [Byte.x32].
Definition val_3 : bytes := [Byte.x33].
Definition val_4 : bytes := [Byte.x34].

Definition stored (v : bytes) : bytes := Compress tag_compressor v.

Definition store_of (t : table) (wb : option WriteBatch) : Store :=
  {| db := {| engine := small_engine; contents := t |};
     writeBatch := wb;
     compressor := tag_compressor |}.

Definition empty_store : Store := store_of [] None.

(** Keys "a", "b", "c", "d" committed. *)
Definition abcd_table : table :=
  [(key_a, stored val_1); (key_b, stored val_2);
   (key_c, stored val_3); (key_d, stored val_4)].
Definition abcd_store : Store := store_of abcd_table None.
Definition abcd_pairs : list KV :=
  [ {| kv_Key := key_a; kv_Value := val_1 |}; {| kv_Key := key_b; kv_Value := val_2 |};
    {| kv_Key := key_c; kv_Value := val_3 |}; {| kv_Key := key_d; kv_Value := val_4 |} ].

(** Keys "ab", "ac", "b" committed. *)
Definition prefix_table : table :=
  [(key_ab, stored val_1); (key_ac, stored val_2); (key_b, stored val_3)].
Definition prefix_store : Store := store_of prefix_table None.
Definition prefix_pairs : list KV :=
  [ {| kv_Key := key_ab; kv_Value := val_1 |}; {| kv_Key := key_ac; kv_Value := val_2 |};
    {| kv_Key := key_b; kv_Value := val_3 |} ].

(** Two writes staged and not yet flushed: the batch is full. *)
Definition full_batch : WriteBatch :=
  {| pending := [NewEntry key_a (stored val_1); NewEntry key_b (stored val_2)] |}.
Definition full_store : Store := store_of [] (Some full_batch).

(** The same engine with a disk that refuses every commit. *)
Definition failing_disk : Engine :=
  {| entry_fault := entry_fault small_engine;
     txn_full := txn_full small_engine;
     flush_fault := fun _ => Some 9%nat;
     get_fault := fun _ => None;
     value_fault := fun _ => None |}.
Definition stuck_store : Store :=
  {| db := {| engine := failing_disk; contents := [] |};
     writeBatch := Some full_batch;
     compressor := tag_compressor |}.

(** An engine with badger's limits on keys: the empty key and a key of
    more than 65000 bytes are refused; nothing else ever fails. *)
Definition key_limit_engine : Engine :=
  {| entry_fault := fun e =>
       match Key e with
       | [] => Some 7%nat
       | _ => if 65000 <? Z.of_nat (length (Key e)) then Some 8%nat else None
       end;
     txn_full := fun _ _ => false;
     flush_fault := fun _ => None;
     get_fault := fun _ => None;
     value_fault := fun _ => None |}.
Definition key_limit_store : Store :=
  {| db := {| engine := key_limit_engine; contents := [] |};
     writeBatch := None;
     compressor := tag_compressor |}.

(** A key of 65001 bytes. *)
Definition long_key : bytes := repeat Byte.x61 (Z.to_nat 65001).

(** An engine whose transactions hold [capacity] bytes of keys and
    values. *)
Definition entry_size (e : Entry) : nat := (length (Key e) + length (Value e))%nat.
Definition sized_engine (capacity : nat) : Engine :=
  {| entry_fault := fun _ => None;
     txn_full := fun staged e =>
       (capacity <? list_sum (map entry_size staged) + entry_size e)%nat;
     flush_fault := fun _ => None;
     get_fault := fun _ => None;
     value_fault := fun _ => None |}.

(** Transactions of eight bytes, and six bytes staged. *)
Definition sized_store : Store :=
  {| db := {| engine := sized_engine 8; contents := [] |};
     writeBatch := Some full_batch;
     compressor := tag_compressor |}.


(** A token triggered before the call. *)
Definition cancelled : Context := {| cancel_at := Some 0%nat; cancel_cause := Canceled |}.

(** ** Vocabulary for sequences of operations *)

(** The value of the last entry staged for [k], if there is one. *)
Fixpoint last_write (k : bytes) (staged : list Entry) : option bytes :=
  match staged with
  | [] => None
  | e :: staged' =>
      match last_write k staged' with
      | Some v => Some v
      | None =>
          match bytes_cmp k (Key e) with
          | Eq => Some (Value e)
          | _ => None
          end
      end
  end.

(** The table a flush of the store's batch would leave. *)
Definition eventual (s : Store) : table :=
  commit (pending (current_batch s)) (contents (db s)).

(** The store literal at the end of [NewStore]: the opened database, the
    compressor, and no batch yet. *)
Definition opened (d : DB) (c : Compressor) : Store :=
  {| db := d; writeBatch := None; compressor := c |}.

(** The writes a caller can issue, and a store after a sequence of them
    (errors returned on the way are the caller's to see; the store goes
    on from the state the failed call left). *)
Inductive op : Type :=
| OpPut (key value : bytes)
| OpFlushPuts.

Definition step (s : Store) (o : op) : Store :=
  match o with
  | OpPut key value => fst (Put s key value)
  | OpFlushPuts => fst (FlushPuts s)
  end.

Definition exec (ops : list op) (s : Store) : Store := fold_left step ops s.

(** What the loops of [Scan] and [Prefix] do with the item at the
    cursor: copy its value, then decompress it. *)
Definition read_stored (s : Store) (txn : Txn) (k c : bytes) : result bytes :=
  match ValueCopy txn {| item_key := k; item_value := c |} with
  | Err err => Err err
  | Ok value => Decompress (compressor s) value
  end.

(** ** The block writer over the store ([eosdb/kv], the write side)

    [DB.Flush], [DB.PutBlock] and [DB.UpdateNowIrreversibleBlock] with
    the functions they call, over the store above as [db.store]. *)

(** An encoded or opaque protobuf message. *)
Definition message := bytes.

(** The fields of the [pbdeos] messages the writer reads. *)
Record TransactionReceipt : Type := {
  receipt_Id : string;
  PackedTransaction : option message       (* nil for a deferred transaction *)
}.

Record DTrxOp : Type := {
  dtrx_TransactionId : string;
  dtrx_Transaction : option message;
  IsCreateOperation : bool;
  IsCancelOperation : bool
}.

Record ActionTrace : Type := {
  act_Account : string;                    (* act.Account() *)
  act_Receiver : string;
  act_Name : string;                       (* act.Name() *)
  act_GetData : string -> string           (* act.GetData(field).String() *)
}.

Record TransactionTrace : Type := {
  trace_Id : string;
  DtrxOps : list DTrxOp;
  ActionTraces : list ActionTrace
}.

Record TrxOp : Type := {
  op_Name : string;
  op_TransactionId : string;
  op_Transaction : option message
}.

Record Block : Type := {
  blk_Id : string;
  blk_Header : option message;
  blk_Time : Z;                            (* blk.MustTime() *)
  Transactions : list TransactionReceipt;
  TransactionTraces : list TransactionTrace;
  ImplicitTransactionOps : list TrxOp
}.

(** The rows of [pbrows]. *)
Inductive row : Type :=
| TrxRow (Receipt : TransactionReceipt) (SignedTrx : message) (PublicKeys : list string)
| DtrxRow (SignedTrx CreatedBy CanceledBy : option message)
| TrxTraceRow (BlockHeader : option message) (TrxTrace : TransactionTrace)
| ImplicitTrxRow (Name : string) (SignedTrx : option message)
| BlockRow (Blk : Block) (ImplicitTrxRefs TrxRefs TraceRefs : list bytes)
| AccountRow (Name Creator : string) (BlockTime : message) (BlockId TrxId : string).

(** What the writer takes from packages that are not among the sources:
    the key packer [Keys], the encoder [db.enc], [deos], [eosdb] and
    [ptypes]. *)
Record Externals : Type := {
  PackTrxsKey : string -> string -> bytes;
  PackDtrxsKey : string -> string -> bytes;
  PackTrxTracesKey : string -> string -> bytes;
  PackImplicitTrxsKey : string -> string -> bytes;
  PackBlocksKey : string -> bytes;
  PackAccountKey : string -> bytes;
  PackTimelineKey : bool -> Z -> string -> bytes;
  PackIrrBlocksKey : string -> bytes;
  MustProto : row -> bytes;
  (* the signed transaction, or the text of the error *)
  ExtractEOSSignedTransactionFromReceipt : TransactionReceipt -> message + string;
  SignedTransactionToDEOS : message -> message;
  GetPublicKeysFromSignedTransaction : bytes -> message -> list string;
  ToExtDTrxOp : DTrxOp -> Block -> TransactionTrace -> message;
  MustHexDecode : string -> bytes;
  (* the timestamp, or the text of the error *)
  TimestampProto : Z -> message + string
}.

(** The errors the writer returns. *)
Inductive werror : Type :=
| Cause (e : error)                          (* an error of the store, as it is *)
| External (text : string)                   (* an error of an outside package *)
| Errorf_w (msg : string) (cause : werror)   (* fmt.Errorf("msg: %w", cause) *)
| Errorf_s (msg : string) (text : string).   (* fmt.Errorf("msg: %s", err) *)

Record KvDB : Type := {
  store : Store;
  writerChainID : bytes
}.

Definition set_store (d : KvDB) (s : Store) : KvDB :=
  {| store := s; writerChainID := writerChainID d |}.

(** [DB.Flush]. *)
Definition DB_Flush (d : KvDB) : KvDB * option error :=
  let (s, err) := FlushPuts (store d) in (set_store d s, err).

(** [DB.SetWriterChainID]. *)
Definition SetWriterChainID (d : KvDB) (chainID : bytes) : KvDB :=
  {| store := store d; writerChainID := chainID |}.

(** [db.store.Put(ctx, key, value)] followed by
    [if err != nil { return fmt.Errorf("msg: %w", err) }]: the error to
    return, or the database to go on with. *)
Definition put_or (msg : string) (d : KvDB) (key value : bytes) : KvDB * option werror :=
  match Put (store d) key value with
  | (s, Some err) => (set_store d s, Some (Errorf_w msg (Cause err)))
  | (s, None) => (set_store d s, None)
  end.

(** The loop of [DB.putTransactions]. *)
Fixpoint putTransactions_loop (X : Externals) (d : KvDB) (blk : Block)
    (trxs : list TransactionReceipt) : KvDB * option werror :=
  match trxs with
  | [] => (d, None)
  | trxReceipt :: trxs' =>
      match PackedTransaction trxReceipt with
      | None => putTransactions_loop X d blk trxs'
      | Some _ =>
          match ExtractEOSSignedTransactionFromReceipt X trxReceipt with
          | inr text =>
              (d, Some (Errorf_s
                 "unable to extract EOS signed transaction from transaction receipt"
                 text))
          | inl signedTransaction =>
              let signedTrx := SignedTransactionToDEOS X signedTransaction in
              let pubKeyProto :=
                GetPublicKeysFromSignedTransaction X (writerChainID d)
                  signedTransaction in
              let trxRow := TrxRow trxReceipt signedTrx pubKeyProto in
              let key := PackTrxsKey X (receipt_Id trxReceipt) (blk_Id blk) in
              match put_or "put trx: write to db" d key (MustProto X trxRow) with
              | (d, Some err) => (d, Some err)
              | (d, None) => putTransactions_loop X d blk trxs'
              end
          end
      end
  end.

Definition putTransactions (X : Externals) (d : KvDB) (blk : Block)
  : KvDB * option werror :=
  putTransactions_loop X d blk (Transactions blk).

(** The row of one deferred-transaction operation. *)
Definition dtrxRow_of (X : Externals) (blk : Block) (trxTrace : TransactionTrace)
    (dtrxOp : DTrxOp) : row :=
  let extDtrxOp := ToExtDTrxOp X dtrxOp blk trxTrace in
  if IsCreateOperation dtrxOp
  then DtrxRow (dtrx_Transaction dtrxOp) (Some extDtrxOp) None
  else if IsCancelOperation dtrxOp
       then DtrxRow None None (Some extDtrxOp)
       else DtrxRow None None None.

(** The inner loop of [DB.putTransactionTraces]. *)
Fixpoint putDtrxOps_loop (X : Externals) (d : KvDB) (blk : Block)
    (trxTrace : TransactionTrace) (ops : list DTrxOp) : KvDB * option werror :=
  match ops with
  | [] => (d, None)
  | dtrxOp :: ops' =>
      let dtrxRow := dtrxRow_of X blk trxTrace dtrxOp in
      let key := PackDtrxsKey X (dtrx_TransactionId dtrxOp) (blk_Id blk) in
      match put_or "put dtrxRow: write to db" d key (MustProto X dtrxRow) with
      | (d, Some err) => (d, Some err)
      | (d, None) => putDtrxOps_loop X d blk trxTrace ops'
      end
  end.

(** The outer loop of [DB.putTransactionTraces]. *)
Fixpoint putTransactionTraces_loop (X : Externals) (d : KvDB) (blk : Block)
    (traces : list TransactionTrace) : KvDB * option werror :=
  match traces with
  | [] => (d, None)
  | trxTrace :: traces' =>
      match putDtrxOps_loop X d blk trxTrace (DtrxOps trxTrace) with
      | (d, Some err) => (d, Some err)
      | (d, None) =>
          let trxTraceRow := TrxTraceRow (blk_Header blk) trxTrace in
          let key := PackTrxTracesKey X (trace_Id trxTrace) (blk_Id blk) in
          match put_or "put trxTraceRow: write to db" d key (MustProto X trxTraceRow) with
          | (d, Some err) => (d, Some err)
          | (d, None) => putTransactionTraces_loop X d blk traces'
          end
      end
  end.

Definition putTransactionTraces (X : Externals) (d : KvDB) (blk : Block)
  : KvDB * option werror :=
  putTransactionTraces_loop X d blk (TransactionTraces blk).

(** The loop of [DB.putImplicitTransactions]. *)
Fixpoint putImplicitTransactions_loop (X : Externals) (d : KvDB) (blk : Block)
    (ops : list TrxOp) : KvDB * option werror :=
  match ops with
  | [] => (d, None)
  | trxOp :: ops' =>
      let implTrxRow := ImplicitTrxRow (op_Name trxOp) (op_Transaction trxOp) in
      let key := PackImplicitTrxsKey X (op_TransactionId trxOp) (blk_Id blk) in
      match put_or "put implTrx: write to db" d key (MustProto X implTrxRow) with
      | (d, Some err) => (d, Some err)
      | (d, None) => putImplicitTransactions_loop X d blk ops'
      end
  end.

Definition putImplicitTransactions (X : Externals) (d : KvDB) (blk : Block)
  : KvDB * option werror :=
  putImplicitTransactions_loop X d blk (ImplicitTransactionOps blk).

(** [DB.getRefs]: the decoded ids, in the order of the block. *)
Definition getRefs (X : Externals) (blk : Block)
  : list bytes * list bytes * list bytes :=
  (map (fun trxOp => MustHexDecode X (op_TransactionId trxOp))
       (ImplicitTransactionOps blk),
   map (fun trx => MustHexDecode X (receipt_Id trx)) (Transactions blk),
   map (fun trx => MustHexDecode X (trace_Id trx)) (TransactionTraces blk)).

(** The block with its three lists set to nil. *)
Definition without_transactions (blk : Block) : Block :=
  {| blk_Id := blk_Id blk; blk_Header := blk_Header blk; blk_Time := blk_Time blk;
     Transactions := []; TransactionTraces := []; ImplicitTransactionOps := [] |}.

(** [DB.putBlock]: the database and the caller's block afterwards, and
    the error. *)
Definition putBlock (X : Externals) (d : KvDB) (blk : Block)
  : KvDB * Block * option werror :=
  let '(implicitTrxRefs, trxRefs, tracesRefs) := getRefs X blk in
  let holdTransactions := Transactions blk in
  let holdTransactionTraces := TransactionTraces blk in
  let holdImplicitTransactionOps := ImplicitTransactionOps blk in
  let blk := without_transactions blk in
  let blockRow := BlockRow blk implicitTrxRefs trxRefs tracesRefs in
  let key := PackBlocksKey X (blk_Id blk) in
  match put_or "put block: write to db" d key (MustProto X blockRow) with
  | (d, Some err) => (d, blk, Some err)
  | (d, None) =>
      let blk :=
        {| blk_Id := blk_Id blk; blk_Header := blk_Header blk;
           blk_Time := blk_Time blk;
           Transactions := holdTransactions;
           TransactionTraces := holdTransactionTraces;
           ImplicitTransactionOps := holdImplicitTransactionOps |} in
      (d, blk, None)
  end.

(** [DB.PutBlock]. *)
Definition PutBlock (X : Externals) (d : KvDB) (blk : Block)
  : KvDB * Block * option werror :=
  match putTransactions X d blk with
  | (d, Some err) =>
      (d, blk, Some (Errorf_w "put block: unable to putTransactions" err))
  | (d, None) =>
      match putTransactionTraces X d blk with
      | (d, Some err) =>
          (d, blk, Some (Errorf_w "put block: unable to putTransactions" err))
      | (d, None) =>
          match putImplicitTransactions X d blk with
          | (d, Some err) =>
              (d, blk, Some (Errorf_w "put block: unable to putTransactions" err))
          | (d, None) => putBlock X d blk
          end
      end
  end.

(** [var oneByte = []byte{0x01}]. *)
Definition oneByte : bytes := [Byte.x01].

(** [DB.putNewAccount]. *)
Definition putNewAccount (X : Externals) (d : KvDB) (blk : Block)
    (trace : TransactionTrace) (act : ActionTrace) : KvDB * option werror :=
  match TimestampProto X (blk_Time blk) with
  | inr text => (d, Some (Errorf_w "block time to proto" (External text)))
  | inl t =>
      let acctRow :=
        AccountRow (act_GetData act "name") (act_GetData act "creator") t
                   (blk_Id blk) (trace_Id trace) in
      let key := PackAccountKey X (act_GetData act "name") in
      put_or "put acctRow: write to db" d key (MustProto X acctRow)
  end.

Definition is_newaccount (act : ActionTrace) : bool :=
  String.eqb (act_Account act) "eosio" && String.eqb (act_Receiver act) "eosio"
  && String.eqb (act_Name act) "newaccount".

(** The inner loop of [DB.UpdateNowIrreversibleBlock]. *)
Fixpoint putNewAccounts_loop (X : Externals) (d : KvDB) (blk : Block)
    (trxTrace : TransactionTrace) (acts : list ActionTrace) : KvDB * option werror :=
  match acts with
  | [] => (d, None)
  | act :: acts' =>
      if is_newaccount act then
        match putNewAccount X d blk trxTrace act with
        | (d, Some err) => (d, Some (Errorf_w "failed to put new account" err))
        | (d, None) => putNewAccounts_loop X d blk trxTrace acts'
        end
      else putNewAccounts_loop X d blk trxTrace acts'
  end.

(** The outer loop of [DB.UpdateNowIrreversibleBlock]. *)
Fixpoint indexNewAccounts_loop (X : Externals) (d : KvDB) (blk : Block)
    (traces : list TransactionTrace) : KvDB * option werror :=
  match traces with
  | [] => (d, None)
  | trxTrace :: traces' =>
      match putNewAccounts_loop X d blk trxTrace (ActionTraces trxTrace) with
      | (d, Some err) => (d, Some err)
      | (d, None) => indexNewAccounts_loop X d blk traces'
      end
  end.

(** [db.store.Put] whose error is returned as it is. *)
Definition put_plain (d : KvDB) (key value : bytes) : KvDB * option werror :=
  match Put (store d) key value with
  | (s, Some err) => (set_store d s, Some (Cause err))
  | (s, None) => (set_store d s, None)
  end.

(** [DB.UpdateNowIrreversibleBlock]. *)
Definition UpdateNowIrreversibleBlock (X : Externals) (d : KvDB) (blk : Block)
  : KvDB * option werror :=
  let blockTime := blk_Time blk in
  match put_plain d (PackTimelineKey X true blockTime (blk_Id blk)) oneByte with
  | (d, Some err) => (d, Some err)
  | (d, None) =>
      match put_plain d (PackTimelineKey X false blockTime (blk_Id blk)) oneByte with
      | (d, Some err) => (d, Some err)
      | (d, None) =>
          match indexNewAccounts_loop X d blk (TransactionTraces blk) with
          | (d, Some err) => (d, Some err)
          | (d, None) => put_plain d (PackIrrBlocksKey X (blk_Id blk)) oneByte
          end
      end
  end.

(** *** What the writer asks the store to write *)

(** A requested write: key and value, before compression. *)
Definition write := (bytes * bytes)%type.

Definition trx_writes (X : Externals) (d : KvDB) (blk : Block)
    (trxReceipt : TransactionReceipt) : list write :=
  match PackedTransaction trxReceipt with
  | None => []
  | Some _ =>
      match ExtractEOSSignedTransactionFromReceipt X trxReceipt with
      | inr _ => []
      | inl signed =>
          [(PackTrxsKey X (receipt_Id trxReceipt) (blk_Id blk),
            MustProto X
              (TrxRow trxReceipt (SignedTransactionToDEOS X signed)
                 (GetPublicKeysFromSignedTransaction X (writerChainID d) signed)))]
      end
  end.

Definition dtrx_write (X : Externals) (blk : Block) (trxTrace : TransactionTrace)
    (dtrxOp : DTrxOp) : write :=
  (PackDtrxsKey X (dtrx_TransactionId dtrxOp) (blk_Id blk),
   MustProto X (dtrxRow_of X blk trxTrace dtrxOp)).

Definition trace_writes (X : Externals) (blk : Block) (trxTrace : TransactionTrace)
  : list write :=
  map (dtrx_write X blk trxTrace) (DtrxOps trxTrace) ++
  [(PackTrxTracesKey X (trace_Id trxTrace) (blk_Id blk),
    MustProto X (TrxTraceRow (blk_Header blk) trxTrace))].

Definition implicit_write (X : Externals) (blk : Block) (trxOp : TrxOp) : write :=
  (PackImplicitTrxsKey X (op_TransactionId trxOp) (blk_Id blk),
   MustProto X (ImplicitTrxRow (op_Name trxOp) (op_Transaction trxOp))).

(** The block row: the block without its three lists, and the ids of
    what was in them. *)
Definition block_row (X : Externals) (blk : Block) : row :=
  BlockRow (without_transactions blk)
    (map (fun trxOp => MustHexDecode X (op_TransactionId trxOp))
         (ImplicitTransactionOps blk))
    (map (fun trx => MustHexDecode X (receipt_Id trx)) (Transactions blk))
    (map (fun trx => MustHexDecode X (trace_Id trx)) (TransactionTraces blk)).

Definition block_write (X : Externals) (blk : Block) : write :=
  (PackBlocksKey X (blk_Id blk), MustProto X (block_row X blk)).

(** The writes of [PutBlock], in the order it issues them. *)
Definition block_writes (X : Externals) (d : KvDB) (blk : Block) : list write :=
  flat_map (trx_writes X d blk) (Transactions blk) ++
  flat_map (trace_writes X blk) (TransactionTraces blk) ++
  map (implicit_write X blk) (ImplicitTransactionOps blk) ++
  [block_write X blk].

Definition account_writes (X : Externals) (blk : Block) (trxTrace : TransactionTrace)
    (act : ActionTrace) : list write :=
  if is_newaccount act then
    match TimestampProto X (blk_Time blk) with
    | inr _ => []
    | inl t =>
        [(PackAccountKey X (act_GetData act "name"),
          MustProto X
            (AccountRow (act_GetData act "name") (act_GetData act "creator") t
               (blk_Id blk) (trace_Id trxTrace)))]
    end
  else [].

(** The writes of [UpdateNowIrreversibleBlock], in the order it issues
    them. *)
Definition irreversible_writes (X : Externals) (blk : Block) : list write :=
  [(PackTimelineKey X true (blk_Time blk) (blk_Id blk), oneByte);
   (PackTimelineKey X false (blk_Time blk) (blk_Id blk), oneByte)] ++
  flat_map (fun trxTrace =>
              flat_map (account_writes X blk trxTrace) (ActionTraces trxTrace))
           (TransactionTraces blk) ++
  [(PackIrrBlocksKey X (blk_Id blk), oneByte)].

(** The engine does not refuse the entry of this write. *)
Definition accepted (s : Store) (w : write) : bool :=
  match entry_fault (engine (db s))
          (NewEntry (fst w) (Compress (compressor s) (snd w))) with
  | None => true
  | Some _ => false
  end.

(** The entries the writes leave in the store: those of the writes the
    engine does not refuse, compressed. *)
Definition staged_as (s : Store) (ws : list write) : list Entry :=
  map (fun w => NewEntry (fst w) (Compress (compressor s) (snd w)))
      (filter (accepted s) ws).

(** Store [s'] is store [s] after the writes [done]: the next flush
    commits them on top of what it would have committed before. *)
Definition wrote (s s' : Store) (done : list write) : Prop :=
  engine (db s') = engine (db s) /\
  compressor s' = compressor s /\
  eventual s' = commit (staged_as s done) (eventual s).

(** The writer went from [d] to [d'] returning [r], having been asked
    for the writes [ws]: it issued an initial part of them, all of them
    if it returned nil, and the store holds what it issued. *)
Definition performed (d d' : KvDB) (ws : list write) (r : option werror) : Prop :=
  exists done rest,
    ws = done ++ rest /\
    wrote (store d) (store d') done /\
    writerChainID d' = writerChainID d /\
    (r = None -> rest = []).

(** *** A small chain to run the writer on *)

Definition tagged (tag : Byte.byte) (id : string) : bytes :=
  tag :: String.list_byte_of_string id.

Definition demo_externals : Externals :=
  {| PackTrxsKey := fun id blk => tagged Byte.x10 id;
     PackDtrxsKey := fun id blk => tagged Byte.x11 id;
     PackTrxTracesKey := fun id blk => tagged Byte.x12 id;
     PackImplicitTrxsKey := fun id blk => tagged Byte.x13 id;
     PackBlocksKey := fun id => tagged Byte.x14 id;
     PackAccountKey := fun name => tagged Byte.x15 name;
     PackTimelineKey := fun fwd t id => tagged (if fwd then Byte.x16 else Byte.x17) id;
     PackIrrBlocksKey := fun id => tagged Byte.x18 id;
     MustProto := fun r =>
       match r with
       | TrxRow rc _ _ => tagged Byte.x20 (receipt_Id rc)
       | DtrxRow _ _ _ => [Byte.x21]
       | TrxTraceRow _ t => tagged Byte.x22 (trace_Id t)
       | ImplicitTrxRow n _ => tagged Byte.x23 n
       | BlockRow b i t c =>
           tagged Byte.x24 (blk_Id b) ++ concat t
       | AccountRow n c _ _ _ => tagged Byte.x25 n
       end;
     ExtractEOSSignedTransactionFromReceipt := fun rc =>
       match PackedTransaction rc with
       | Some (Byte.x00 :: _) => inr "bad packed transaction"%string
       | Some m => inl m
       | None => inr "no packed transaction"%string
       end;
     SignedTransactionToDEOS := fun m => m;
     GetPublicKeysFromSignedTransaction := fun chain m => [];
     ToExtDTrxOp := fun op blk t => [Byte.x30];
     MustHexDecode := fun id => String.list_byte_of_string id;
     TimestampProto := fun t => if t <? 0 then inr "negative time"%string else inl [] |}.

Definition demo_block : Block :=
  {| blk_Id := "b1"; blk_Header := None; blk_Time := 5;
     Transactions :=
       [ {| receipt_Id := "t1"; PackedTransaction := Some [Byte.x01] |};
         {| receipt_Id := "t2"; PackedTransaction := None |} ];
     TransactionTraces :=
       [ {| trace_Id := "t1";
            DtrxOps := [ {| dtrx_TransactionId := "d1"; dtrx_Transaction := None;
                            IsCreateOperation := false; IsCancelOperation := true |} ];
            ActionTraces :=
              [ {| act_Account := "eosio"; act_Receiver := "eosio";
                   act_Name := "newaccount"; act_GetData := fun f => f |};
                {| act_Account := "eosio"; act_Receiver := "other";
                   act_Name := "newaccount"; act_GetData := fun f => f |} ] |} ];
     ImplicitTransactionOps :=
       [ {| op_Name := "onblock"; op_TransactionId := "i1"; op_Transaction := None |} ] |}.

(** An engine that holds any number of entries and never fails. *)
Definition roomy_engine : Engine :=
  {| entry_fault := fun _ => None;
     txn_full := fun _ _ => false;
     flush_fault := fun _ => None;
     get_fault := fun _ => None;
     value_fault := fun _ => None |}.

Definition demo_db : KvDB :=
  {| store := opened {| engine := roomy_engine; contents := [] |} tag_compressor;
     writerChainID := [] |}.

(** The same over the engine whose disk refuses every commit, with a
    full batch: the next [Put] fails. *)
Definition stuck_db : KvDB := {| store := stuck_store; writerChainID := [] |}.

(** ** Byte-string order *)

Lemma byte_to_N_inj x y : Byte.to_N x = Byte.to_N y -> x = y.
Proof.
  intros H. pose proof (Byte.of_to_N x) as Hx.
  rewrite H, Byte.of_to_N in Hx. congruence.
Qed.

Lemma bytes_cmp_refl a : bytes_cmp a a = Eq.
Proof.
  induction a as [|x a IH]; simpl; [reflexivity|].
  now rewrite N.compare_refl.
Qed.

Lemma bytes_cmp_eq a b : bytes_cmp a b = Eq -> a = b.
Proof.
  revert b; induction a as [|x a IH]; intros [|y b]; simpl; try discriminate; auto.
  destruct (N.compare_spec (Byte.to_N x) (Byte.to_N y)) as [E|L|G]; try discriminate.
  intros H. apply byte_to_N_inj in E. apply IH in H. congruence.
Qed.

Lemma bytes_cmp_antisym a b : bytes_cmp b a = CompOpp (bytes_cmp a b).
Proof.
  revert b; induction a as [|x a IH]; intros [|y b]; simpl; auto.
  rewrite (N.compare_antisym (Byte.to_N x) (Byte.to_N y)).
  destruct (N.compare (Byte.to_N x) (Byte.to_N y)); simpl; auto.
Qed.

Lemma bytes_cmp_lt_trans a b c :
  bytes_cmp a b = Lt -> bytes_cmp b c = Lt -> bytes_cmp a c = Lt.
Proof.
  revert b c; induction a as [|x a IH]; intros [|y b] [|z c]; simpl;
    try discriminate; auto.
  destruct (N.compare_spec (Byte.to_N x) (Byte.to_N y)) as [E|L|G];
    destruct (N.compare_spec (Byte.to_N y) (Byte.to_N z)) as [E'|L'|G'];
    try discriminate; intros H1 H2.
  - rewrite E, E', N.compare_refl. eauto.
  - rewrite E. now apply N.compare_lt_iff in L'; rewrite L'.
  - rewrite <- E'. now apply N.compare_lt_iff in L; rewrite L.
  - assert (L'' : (Byte.to_N x < Byte.to_N z)%N) by lia.
    now apply N.compare_lt_iff in L''; rewrite L''.
Qed.

Lemma bytes_cmp_gt_lt a b : bytes_cmp a b = Gt <-> bytes_cmp b a = Lt.
Proof.
  rewrite (bytes_cmp_antisym a b). destruct (bytes_cmp a b); simpl; split; congruence.
Qed.

Lemma bytes_cmp_le_lt_trans a b c :
  bytes_cmp a b <> Gt -> bytes_cmp b c = Lt -> bytes_cmp a c = Lt.
Proof.
  intros H1 H2. destruct (bytes_cmp a b) eqn:E; try congruence.
  - apply bytes_cmp_eq in E. now subst.
  - eauto using bytes_cmp_lt_trans.
Qed.

Lemma Compare_lt k e : (Compare k e =? -1) = bytes_ltb k e.
Proof. unfold Compare, bytes_ltb. now destruct (bytes_cmp k e). Qed.

(** ** The ordered table *)

Lemma lookup_upsert_same k v t : lookup k (upsert k v t) = Some v.
Proof.
  induction t as [|[k' v'] t IH]; simpl.
  - now rewrite bytes_cmp_refl.
  - destruct (bytes_cmp k k') eqn:E; simpl.
    + now rewrite bytes_cmp_refl.
    + now rewrite bytes_cmp_refl.
    + now rewrite E.
Qed.

Lemma lookup_upsert_other k k' v t :
  k <> k' -> lookup k (upsert k' v t) = lookup k t.
Proof.
  intros N. induction t as [|[k0 v0] t IH]; simpl.
  - destruct (bytes_cmp k k') eqn:E; auto. apply bytes_cmp_eq in E. contradiction.
  - destruct (bytes_cmp k' k0) eqn:E'; simpl.
    + apply bytes_cmp_eq in E'. subst k0.
      destruct (bytes_cmp k k') eqn:E; auto. apply bytes_cmp_eq in E. contradiction.
    + destruct (bytes_cmp k k') eqn:E; auto. apply bytes_cmp_eq in E. contradiction.
    + now rewrite IH.
Qed.

Lemma commit_app p q t : commit (p ++ q) t = commit q (commit p t).
Proof. unfold commit. now rewrite fold_left_app. Qed.

Lemma lookup_commit_last p k v t :
  lookup k (commit (p ++ [NewEntry k v]) t) = Some v.
Proof. rewrite commit_app. simpl. apply lookup_upsert_same. Qed.

Lemma upsert_keys_Forall (P : bytes -> Prop) k v t :
  P k -> Forall P (map fst t) -> Forall P (map fst (upsert k v t)).
Proof.
  intros Pk. induction t as [|[k' v'] t IH]; simpl; intros F.
  - constructor; auto.
  - inversion F; subst.
    destruct (bytes_cmp k k'); simpl; constructor; auto.
Qed.

Lemma upsert_sorted k v t : sorted t -> sorted (upsert k v t).
Proof.
  unfold sorted. induction t as [|[k' v'] t IH]; simpl; intros S.
  - repeat constructor.
  - inversion S as [|? ? F S']; subst.
    destruct (bytes_cmp k k') eqn:E; simpl.
    + apply bytes_cmp_eq in E. subst k'. constructor; assumption.
    + constructor; [|now constructor].
      constructor; auto.
      eapply Forall_impl; [|exact F]. simpl. intros a Ha.
      eauto using bytes_cmp_lt_trans.
    + constructor; auto.
      apply upsert_keys_Forall; auto. now apply bytes_cmp_gt_lt.
Qed.

Lemma commit_sorted p t : sorted t -> sorted (commit p t).
Proof.
  revert t; induction p as [|e p IH]; simpl; intros t S; auto.
  apply IH. now apply upsert_sorted.
Qed.

(** ** Put, FlushPuts, Get *)

Lemma SetEntry_staged d wb e wb' :
  SetEntry d wb e = (wb', None) -> pending wb' = pending wb ++ [e].
Proof.
  unfold SetEntry. destruct (entry_fault (engine d) e); [discriminate|].
  destruct (txn_full (engine d) (pending wb) e); [discriminate|].
  intros H. now inversion H.
Qed.

Lemma SetEntry_refused d wb e wb' err :
  SetEntry d wb e = (wb', Some err) -> wb' = wb.
Proof.
  unfold SetEntry. destruct (entry_fault (engine d) e).
  - intros H. now inversion H.
  - destruct (txn_full (engine d) (pending wb) e); intros H; now inversion H.
Qed.

Lemma Flush_engine d wb : engine (fst (Flush d wb)) = engine d.
Proof. unfold Flush. now destruct (flush_fault (engine d) (pending wb)). Qed.

Lemma Flush_ok d wb d' :
  Flush d wb = (d', None) ->
  engine d' = engine d /\ contents d' = commit (pending wb) (contents d).
Proof.
  unfold Flush. destruct (flush_fault (engine d) (pending wb)); [discriminate|].
  intros H. inversion H. auto.
Qed.

(** After a [Put] that returned nil for an entry the engine accepts, the
    entry is the last one of the store's batch. *)
Lemma Put_stages_last s k v s1 :
  entry_fault (engine (db s)) (NewEntry k (Compress (compressor s) v)) = None ->
  Put s k v = (s1, None) ->
  engine (db s1) = engine (db s) /\ compressor s1 = compressor s /\
  exists wb p, writeBatch s1 = Some wb /\
               pending wb = p ++ [NewEntry k (Compress (compressor s) v)].
Proof.
  intros Hacc. unfold Put. fold (current_batch s).
  set (e := NewEntry k (Compress (compressor s) v)) in *.
  destruct (SetEntry (db s) (current_batch s) e) as [wb1 [err|]] eqn:E1.
  - assert (err = ErrTxnTooBig) as ->.
    { unfold SetEntry in E1. rewrite Hacc in E1.
      destruct (txn_full _ _ _); inversion E1; auto. }
    destruct (Flush (db s) wb1) as [db1 [ferr|]] eqn:EF; [discriminate|].
    destruct (SetEntry db1 (NewWriteBatch db1) e) as [wb2 [err2|]] eqn:E2;
      [discriminate|].
    intros H; inversion H; subst; simpl.
    apply Flush_ok in EF. destruct EF as [He _].
    repeat split; auto.
    exists wb2, []. split; auto. now apply SetEntry_staged in E2.
  - intros H; inversion H; subst; simpl. repeat split; auto.
    exists wb1, (pending (current_batch s)). split; auto.
    now apply SetEntry_staged in E1.
Qed.

Lemma Get_unfold s k :
  Get s k =
  match get_fault (engine (db s)) k with
  | Some c => Err (ErrBadger c)
  | None =>
      match lookup k (contents (db s)) with
      | None => Err ErrNotFound
      | Some stored =>
          match value_fault (engine (db s)) k with
          | Some c => Err (ErrBadger c)
          | None => Decompress (compressor s) stored
          end
      end
  end.
Proof.
  unfold Get, View, txn_Get, ValueCopy; simpl.
  destruct (get_fault (engine (db s)) k); simpl; auto.
  destruct (lookup k (contents (db s))); simpl; auto.
  destruct (value_fault (engine (db s)) k); simpl; auto.
  now destruct (Decompress (compressor s) b).
Qed.

(** ** The store invariant *)

Lemma upsert_decodable c k v t :
  (exists x, Decompress c v = Ok x) -> decodable c t -> decodable c (upsert k v t).
Proof.
  intros Hv. unfold decodable. induction t as [|[k' v'] t IH]; simpl; intros D.
  - now constructor.
  - inversion D; subst.
    destruct (bytes_cmp k k'); constructor; auto.
Qed.

Lemma commit_decodable c p t :
  Forall (fun e => exists v, Decompress c (Value e) = Ok v) p ->
  decodable c t -> decodable c (commit p t).
Proof.
  intros F; revert t. induction F as [|e p He _ IH]; simpl; intros t D; auto.
  apply IH. now apply upsert_decodable.
Qed.

Lemma decodable_holds c t : decodable c t -> exists kvs, holds c t kvs.
Proof.
  induction 1 as [|[k v] t [x Hx] _ [kvs IH]].
  - exists []. constructor.
  - exists ({| kv_Key := k; kv_Value := x |} :: kvs). constructor; auto.
Qed.

Lemma store_ok_empty eng c :
  store_ok {| db := {| engine := eng; contents := [] |};
              writeBatch := None; compressor := c |}.
Proof. repeat split; constructor. Qed.

Lemma Put_store_ok s k v :
  round_trips (compressor s) -> store_ok s -> store_ok (fst (Put s k v)).
Proof.
  intros RT (S & D & P). unfold Put. fold (current_batch s).
  set (e := NewEntry k (Compress (compressor s) v)).
  assert (He : exists x, Decompress (compressor s) (Value e) = Ok x)
    by (exists v; apply RT).
  assert (Pe : Forall (fun e => exists v, Decompress (compressor s) (Value e) = Ok v)
                 (pending (current_batch s) ++ [e]))
    by (apply Forall_app; split; [exact P | now constructor]).
  unfold SetEntry.
  destruct (entry_fault (engine (db s)) e); [now repeat split|].
  destruct (txn_full (engine (db s)) (pending (current_batch s)) e);
    [|now repeat split].
  unfold Flush.
  destruct (flush_fault (engine (db s)) (pending (current_batch s)));
    [now repeat split|].
  simpl.
  assert (S' : sorted (commit (pending (current_batch s)) (contents (db s))))
    by now apply commit_sorted.
  assert (D' : decodable (compressor s)
                 (commit (pending (current_batch s)) (contents (db s))))
    by now apply commit_decodable.
  destruct (entry_fault (engine (db s)) e); [repeat split; auto; constructor|].
  destruct (txn_full (engine (db s)) [] e); repeat split; auto;
    repeat constructor; auto.
Qed.

Lemma FlushPuts_store_ok s : store_ok s -> store_ok (fst (FlushPuts s)).
Proof.
  intros (S & D & P). unfold FlushPuts.
  destruct (writeBatch s) as [wb|] eqn:E; [|repeat split; auto].
  unfold current_batch in P. rewrite E in P.
  unfold Flush.
  destruct (flush_fault (engine (db s)) (pending wb)); [now repeat split|].
  repeat split; simpl.
  - now apply commit_sorted.
  - now apply commit_decodable.
  - constructor.
Qed.

(** An entry that no transaction can hold, even an empty one, makes [Put]
    return the second refusal, wrapped. *)
Lemma Put_entry_exceeding_empty_txn s k v :
  let e := NewEntry k (Compress (compressor s) v) in
  entry_fault (engine (db s)) e = None ->
  txn_full (engine (db s)) (pending (current_batch s)) e = true ->
  txn_full (engine (db s)) [] e = true ->
  flush_fault (engine (db s)) (pending (current_batch s)) = None ->
  snd (Put s k v) = Some (ErrWrap "after txn too big" ErrTxnTooBig).
Proof.
  intros e Hacc Hfull Hfresh Hflush.
  unfold Put. fold (current_batch s). fold e.
  unfold SetEntry. rewrite Hacc, Hfull.
  unfold Flush. rewrite Hflush. simpl. now rewrite Hacc, Hfresh.
Qed.

(** A write the engine refuses is lost without a word: [Put] returns
    nil, and after a flush that returns nil the key reads as it would
    have without the [Put]. *)
Lemma Put_refused_is_lost s k v c s2 :
  entry_fault (engine (db s)) (NewEntry k (Compress (compressor s) v)) = Some c ->
  FlushPuts (fst (Put s k v)) = (s2, None) ->
  snd (Put s k v) = None /\
  lookup k (contents (db s2)) =
    lookup k (commit (pending (current_batch s)) (contents (db s))).
Proof.
  intros Href. unfold Put. fold (current_batch s).
  unfold SetEntry. rewrite Href. simpl.
  unfold FlushPuts. simpl.
  destruct (Flush (db s) (current_batch s)) as [d [err|]] eqn:EF; [discriminate|].
  intros H; inversion H; subst s2; clear H. simpl.
  apply Flush_ok in EF. destruct EF as [_ ->]. now split.
Qed.

(** C1, on a key the engine refuses (badger refuses a key of more than
    65000 bytes): [Put(k, v)] returns nil, [FlushPuts()] returns nil, and
    [Get(k)] returns [ErrNotFound] instead of [v]. *)
Theorem C1_refused_write_is_lost :
  snd (Put key_limit_store long_key val_1) = None /\
  snd (FlushPuts (fst (Put key_limit_store long_key val_1))) = None /\
  Get (fst (FlushPuts (fst (Put key_limit_store long_key val_1)))) long_key =
    Err ErrNotFound.
Proof. vm_compute. repeat split. Qed.

(** C5. [Get] on a key that is not stored returns [ErrNotFound], an
    error and not a value; on a stored key it returns the decompressed
    value; and it returns [ErrNotFound] in no other case than the key
    being absent. *)
Theorem C5_get_not_found s k :
  (get_fault (engine (db s)) k = None ->
   lookup k (contents (db s)) = None ->
   Get s k = Err ErrNotFound) /\
  (forall c v,
     get_fault (engine (db s)) k = None ->
     value_fault (engine (db s)) k = None ->
     lookup k (contents (db s)) = Some c ->
     Decompress (compressor s) c = Ok v ->
     Get s k = Ok v) /\
  (Get s k = Err ErrNotFound ->
   get_fault (engine (db s)) k = None /\ lookup k (contents (db s)) = None).
Proof.
  rewrite Get_unfold. split; [|split].
  - intros -> ->. reflexivity.
  - intros c v -> -> -> ->. reflexivity.
  - destruct (get_fault (engine (db s)) k); [discriminate|].
    destruct (lookup k (contents (db s))) as [c|]; [|now split].
    destruct (value_fault (engine (db s)) k); [discriminate|].
    unfold Decompress. destruct (codec (compressor s) c); discriminate.
Qed.

Lemma C5_witness :
  Get abcd_store key_ab = Err ErrNotFound /\
  Get abcd_store key_b = Ok val_2 /\
  lookup key_ab (contents (db abcd_store)) = None.
Proof.
  destruct (C5_get_not_found abcd_store key_ab) as (H1 & _ & H3).
  destruct (C5_get_not_found abcd_store key_b) as (_ & H2 & _).
  split; [apply H1; reflexivity|].
  split; [apply (H2 (stored val_2) val_2); reflexivity|].
  apply H3. apply H1; reflexivity.
Defined.




(** C9. When [SetEntry] fails with an error other than [ErrTxnTooBig],
    [Put] returns nil although the entry has not been staged: the
    committed contents and the pending writes are what they were. *)
Theorem C9_put_drops_refused_entry s k v err :
  snd (SetEntry (db s) (current_batch s)
         (NewEntry k (Compress (compressor s) v))) = Some err ->
  err <> ErrTxnTooBig ->
  Put s k v = (with_batch s (db s) (Some (current_batch s)), None).
Proof.
  intros HE Hne. unfold Put. fold (current_batch s).
  destruct (SetEntry (db s) (current_batch s)
              (NewEntry k (Compress (compressor s) v))) as [wb1 oe] eqn:E.
  simpl in HE. subst oe. apply SetEntry_refused in E as ->.
  destruct err; try reflexivity. contradiction.
Qed.

Lemma C9_witness :
  Put full_store [] val_3 = (full_store, None) /\
  Get (fst (FlushPuts (fst (Put full_store [] val_3)))) [] = Err ErrNotFound.
Proof.
  split; [|reflexivity].
  apply (C9_put_drops_refused_entry full_store [] val_3 (ErrBadger 7)).
  - reflexivity.
  - discriminate.
Defined.

(** ** Order, prefixes and ranges *)

Lemma bytes_leb_antisym_lt a b : bytes_leb a b = negb (bytes_ltb b a).
Proof.
  unfold bytes_leb, bytes_ltb. rewrite (bytes_cmp_antisym a b).
  now destruct (bytes_cmp a b).
Qed.

Lemma bytes_leb_lt_trans a b c :
  bytes_leb a b = true -> bytes_cmp b c = Lt -> bytes_leb a c = true.
Proof.
  intros H1 H2. unfold bytes_leb in *.
  assert (bytes_cmp a c = Lt) as ->; [|reflexivity].
  apply bytes_cmp_le_lt_trans with b; auto.
  destruct (bytes_cmp a b); congruence.
Qed.

Lemma byte_eqb_eq x y : byte_eqb x y = true <-> Byte.to_N x = Byte.to_N y.
Proof. unfold byte_eqb. apply N.eqb_eq. Qed.

(** A key is not below any of its prefixes. *)
Lemma HasPrefix_leb k p : HasPrefix k p = true -> bytes_leb p k = true.
Proof.
  unfold bytes_leb. revert k; induction p as [|x p IH]; intros [|y k]; simpl;
    try reflexivity; try discriminate.
  intros H. apply andb_true_iff in H. destruct H as [E H].
  apply byte_eqb_eq in E. rewrite E, N.compare_refl. auto.
Qed.

(** The keys sharing a prefix form an interval that starts at the prefix. *)
Lemma HasPrefix_interval p k1 k2 :
  bytes_leb p k1 = true -> bytes_cmp k1 k2 = Lt ->
  HasPrefix k2 p = true -> HasPrefix k1 p = true.
Proof.
  unfold bytes_leb.
  revert k1 k2; induction p as [|x p IH]; intros [|y k1] [|z k2]; simpl;
    try reflexivity; try discriminate.
  intros Hle Hlt Hp. apply andb_true_iff in Hp. destruct Hp as [E Hp].
  apply byte_eqb_eq in E.
  destruct (N.compare_spec (Byte.to_N x) (Byte.to_N y)) as [E1|L1|G1];
    destruct (N.compare_spec (Byte.to_N y) (Byte.to_N z)) as [E2|L2|G2];
    try discriminate; try lia.
  apply andb_true_iff. split.
  - apply byte_eqb_eq. congruence.
  - eauto.
Qed.

Lemma prefix_incremented_none p k :
  prefix_incremented p = None -> bytes_leb p k = true -> HasPrefix k p = true.
Proof.
  unfold bytes_leb.
  revert k; induction p as [|x p IH]; intros [|y k]; simpl;
    try reflexivity; try discriminate.
  destruct (prefix_incremented p) eqn:Ep; [discriminate|].
  destruct (Byte.of_N (Byte.to_N x + 1)) eqn:Eo; [discriminate|].
  intros _.
  assert (Hx : Byte.to_N x = 255%N).
  { pose proof (Byte.to_of_N_option_map (Byte.to_N x + 1)) as H.
    rewrite Eo in H. simpl in H.
    destruct (N.leb_spec (Byte.to_N x + 1) 255); [discriminate|].
    pose proof (Byte.to_N_bounded x). lia. }
  pose proof (Byte.to_N_bounded y) as Hy.
  destruct (N.compare_spec (Byte.to_N x) (Byte.to_N y)) as [E1|L1|G1];
    try discriminate; try lia.
  intros H. apply andb_true_iff. split.
  - apply byte_eqb_eq. congruence.
  - apply IH; auto.
Qed.

(** Above the prefix, being below [prefix_incremented] is having the
    prefix. *)
Lemma prefix_incremented_range p e k :
  prefix_incremented p = Some e -> bytes_leb p k = true ->
  bytes_ltb k e = HasPrefix k p.
Proof.
  unfold bytes_leb, bytes_ltb.
  revert e k; induction p as [|x p IH]; intros e [|y k]; simpl;
    try discriminate.
  destruct (prefix_incremented p) as [e'|] eqn:Ep.
  - intros H; inversion H; subst e; clear H. simpl.
    unfold byte_eqb. rewrite (N.compare_antisym (Byte.to_N x) (Byte.to_N y)).
    destruct (N.compare_spec (Byte.to_N x) (Byte.to_N y)) as [E1|L1|G1];
      simpl; try discriminate; intros H.
    + rewrite E1, N.eqb_refl. simpl. now apply IH.
    + assert (Hn : (Byte.to_N y =? Byte.to_N x)%N = false)
        by (apply N.eqb_neq; lia).
      now rewrite Hn.
  - destruct (Byte.of_N (Byte.to_N x + 1)) as [x'|] eqn:Eo; [|discriminate].
    intros H; inversion H; subst e; clear H. simpl.
    apply Byte.to_of_N in Eo. rewrite Eo. unfold byte_eqb.
    destruct (N.compare_spec (Byte.to_N x) (Byte.to_N y)) as [E1|L1|G1];
      try discriminate; intros H.
    + rewrite <- E1, N.eqb_refl. simpl.
      assert ((Byte.to_N x ?= Byte.to_N x + 1)%N = Lt) as ->
        by (apply N.compare_lt_iff; lia).
      symmetry. apply prefix_incremented_none; auto.
    + assert (Hn : (Byte.to_N y =? Byte.to_N x)%N = false)
        by (apply N.eqb_neq; lia).
      rewrite Hn. simpl.
      destruct (N.compare_spec (Byte.to_N y) (Byte.to_N x + 1)) as [E2|L2|G2];
        try lia; auto.
      now destruct k.
Qed.

(** ** Sorted tables, cursors and the pairs they hold *)

Lemma filter_all {A : Type} (f : A -> bool) (l : list A) :
  Forall (fun x => f x = true) l -> filter f l = l.
Proof.
  induction 1 as [|x l Hx _ IH]; simpl; [reflexivity|].
  now rewrite Hx, IH.
Qed.

Lemma filter_none {A : Type} (f : A -> bool) (l : list A) :
  Forall (fun x => f x = false) l -> filter f l = [].
Proof.
  induction 1 as [|x l Hx _ IH]; simpl; [reflexivity|].
  now rewrite Hx.
Qed.

Lemma filter_filter {A : Type} (f g : A -> bool) (l : list A) :
  filter g (filter f l) = filter (fun x => f x && g x) l.
Proof.
  induction l as [|x l IH]; simpl; [reflexivity|].
  destruct (f x); simpl; [destruct (g x)|]; now rewrite IH.
Qed.

Lemma ascending_filter {A : Type} (key : A -> bytes) (f : A -> bool) l :
  ascending (map key l) -> ascending (map key (filter f l)).
Proof.
  induction l as [|x l IH]; simpl; intros S; [constructor|].
  inversion S as [|? ? F S']; subst.
  destruct (f x); simpl; auto.
  constructor; auto.
  rewrite Forall_map in *. rewrite Forall_forall in *.
  intros y Hy. apply filter_In in Hy. now apply F.
Qed.

Lemma firstn_In {A : Type} n (l : list A) x : In x (firstn n l) -> In x l.
Proof.
  intros H. rewrite <- (firstn_skipn n l). apply in_or_app. now left.
Qed.

Lemma ascending_firstn {A : Type} (key : A -> bytes) n (l : list A) :
  ascending (map key l) -> ascending (map key (firstn n l)).
Proof.
  revert l; induction n as [|n IH]; intros [|x l]; simpl; intros S;
    try constructor.
  - inversion S as [|? ? F S']; subst.
    rewrite Forall_map in *. rewrite Forall_forall in *.
    intros y Hy. apply F. eapply firstn_In; eauto.
  - inversion S as [|? ? F S']; subst. now apply IH.
Qed.

(** On keys in ascending order, a predicate that stays false once it is
    false selects an initial segment. *)
Lemma take_while_filter {A : Type} (key : A -> bytes) (f : bytes -> bool) l :
  ascending (map key l) ->
  (forall k k', In k (map key l) -> f k = false -> bytes_cmp k k' = Lt -> f k' = false) ->
  take_while (fun x => f (key x)) l = filter (fun x => f (key x)) l.
Proof.
  induction l as [|x l IH]; simpl; intros S Hf; [reflexivity|].
  inversion S as [|? ? F S']; subst.
  destruct (f (key x)) eqn:E.
  - f_equal. apply IH; auto.
    intros k k' Hin. apply Hf. now right.
  - symmetry. apply filter_none.
    rewrite Forall_map in F. eapply Forall_impl; [|exact F].
    simpl. intros y Hy. eapply Hf; eauto.
Qed.

Lemma Seek_filter start t :
  sorted t -> Seek start t = filter (fun st => bytes_leb start (fst st)) t.
Proof.
  unfold sorted. induction t as [|[k v] t IH]; simpl; intros S; [reflexivity|].
  inversion S as [|? ? F S']; subst.
  rewrite bytes_leb_antisym_lt. unfold bytes_ltb.
  destruct (bytes_cmp k start) eqn:E; simpl; auto.
  - f_equal. symmetry. apply filter_all.
    rewrite Forall_map in F. eapply Forall_impl; [|exact F].
    simpl. intros [k' v'] Hk. simpl in *.
    apply bytes_cmp_eq in E. subst k. unfold bytes_leb. now rewrite Hk.
  - f_equal. symmetry. apply filter_all.
    rewrite Forall_map in F. eapply Forall_impl; [|exact F].
    simpl. intros [k' v'] Hk. simpl in *.
    apply bytes_leb_lt_trans with k; auto.
    unfold bytes_leb. apply bytes_cmp_gt_lt in E. now rewrite E.
Qed.

Lemma holds_keys c t kvs : holds c t kvs -> map fst t = map kv_Key kvs.
Proof.
  induction 1 as [|st kv t kvs [Hk _] _ IH]; simpl; [reflexivity|].
  now rewrite Hk, IH.
Qed.

Lemma holds_filter c t kvs (f : bytes -> bool) :
  holds c t kvs ->
  holds c (filter (fun st => f (fst st)) t) (filter (fun kv => f (kv_Key kv)) kvs).
Proof.
  induction 1 as [|st kv t kvs [Hk Hv] _ IH]; simpl; [constructor|].
  rewrite Hk. destruct (f (kv_Key kv)); auto.
  constructor; auto.
Qed.

Lemma sorted_Seek start t : sorted t -> sorted (Seek start t).
Proof.
  intros S. rewrite Seek_filter by assumption.
  now apply (ascending_filter fst).
Qed.

Lemma Seek_lower_bound start t :
  sorted t -> Forall (fun st => bytes_leb start (fst st) = true) (Seek start t).
Proof.
  intros S. rewrite Seek_filter by assumption.
  apply Forall_forall. intros st H. now apply filter_In in H.
Qed.

(** ** The producers *)

Lemma pushed_terminate it r :
  pushed (terminate (it, r)) =
  pushed it ++ [match r with Some err => EvError err | None => EvFinished end].
Proof. now destruct r. Qed.

Lemma ctx_Err_never ctx n : cancel_at ctx = None -> ctx_Err ctx n = None.
Proof. unfold ctx_Err. now intros ->. Qed.

Lemma int_incr_small count limit :
  is_int limit -> 0 <= count < limit -> int_incr count = count + 1.
Proof.
  unfold is_int, int_incr, int_wrap. intros Hl Hc.
  rewrite Z.mod_small; lia.
Qed.

Lemma KV_eta kv : {| kv_Key := kv_Key kv; kv_Value := kv_Value kv |} = kv.
Proof. now destruct kv. Qed.

Lemma budget_nil {A : Type} limit count : @budget A limit count [] = [].
Proof. unfold budget. destruct (0 <? limit); auto using firstn_nil. Qed.

(** The loop of [Scan] when nothing fails: it pushes the pairs of the
    cursor up to the first key not below [exclusiveEnd], and no more
    than what is left of a positive [limit]. *)
Lemma Scan_loop_run s txn e limit bit items :
  (forall k, value_fault (txn_engine txn) k = None) ->
  holds (compressor s) bit items ->
  forall count sit,
    cancel_at (it_ctx sit) = None ->
    limit <= 0 \/ (0 <= count < limit /\ is_int limit) ->
    snd (Scan_loop s txn e limit bit count sit) = None /\
    it_ctx (fst (Scan_loop s txn e limit bit count sit)) = it_ctx sit /\
    pushed (fst (Scan_loop s txn e limit bit count sit)) =
      pushed sit ++
      map EvItem (budget limit count
                    (take_while (fun kv => bytes_ltb (kv_Key kv) e) items)).
Proof.
  intros Hvf. induction 1 as [|[k c] kv bit items [Hk Hv] _ IH];
    intros count sit Hctx Hlim.
  - simpl. rewrite budget_nil. simpl. now rewrite app_nil_r.
  - simpl in Hk, Hv. subst k. simpl. rewrite Compare_lt.
    destruct (bytes_ltb (kv_Key kv) e) eqn:Elt.
    2:{ simpl. rewrite budget_nil. simpl. now rewrite app_nil_r. }
    unfold Context_Err. rewrite ctx_Err_never by assumption.
    unfold ValueCopy. simpl. rewrite Hvf, Hv. unfold KeyCopy. simpl.
    rewrite KV_eta.
    set (sit1 := PushItem kv _).
    assert (Hctx1 : cancel_at (it_ctx sit1) = None) by exact Hctx.
    unfold budget.
    destruct Hlim as [Hle|[Hc Hint]].
    + assert ((0 <? limit) = false) as -> by (apply Z.ltb_ge; lia).
      rewrite andb_false_r.
      destruct (IH (int_incr count) sit1 Hctx1 (or_introl Hle)) as (I1 & I2 & I3).
      repeat split; auto.
      rewrite I3. unfold budget.
      assert ((0 <? limit) = false) as -> by (apply Z.ltb_ge; lia).
      simpl. now rewrite <- app_assoc.
    + rewrite (int_incr_small count limit) by assumption.
      assert ((0 <? limit) = true) as -> by (apply Z.ltb_lt; lia).
      rewrite andb_true_r.
      destruct (Z.eqb_spec (count + 1) limit) as [Heq|Hneq].
      * replace (Z.to_nat (limit - count)) with 1%nat by lia.
        simpl. now repeat split.
      * assert (Hc1 : 0 <= count + 1 < limit) by lia.
        destruct (IH (count + 1) sit1 Hctx1 (or_intror (conj Hc1 Hint)))
          as (I1 & I2 & I3).
        repeat split; auto.
        rewrite I3. unfold budget.
        assert ((0 <? limit) = true) as -> by (apply Z.ltb_lt; lia).
        replace (Z.to_nat (limit - count))
          with (S (Z.to_nat (limit - (count + 1)))) by lia.
        simpl. now rewrite <- app_assoc.
Qed.

Lemma bytes_ltb_closed e k k' :
  bytes_ltb k e = false -> bytes_cmp k k' = Lt -> bytes_ltb k' e = false.
Proof.
  unfold bytes_ltb. intros H1 H2.
  destruct (bytes_cmp k' e) eqn:E; auto.
  now rewrite (bytes_cmp_lt_trans k k' e) in H1.
Qed.

Lemma holds_ascending c t kvs :
  holds c t kvs -> sorted t -> ascending (map kv_Key kvs).
Proof. intros H S. unfold sorted in S. now rewrite (holds_keys c t kvs H) in S. Qed.

(** C2. With the stored pairs [kvs] in the table, a caller that does not
    cancel and an engine that reads without failing,
    [Scan(start, exclusiveEnd, limit)] pushes exactly the pairs whose key
    is in [start <= k < exclusiveEnd], in ascending key order, followed
    by the end of the stream: all of them when [limit <= 0], the first
    [limit] of them when [limit > 0]. *)
Theorem C2_scan_range_limit s ctx start exclusiveEnd limit kvs :
  sorted (contents (db s)) ->
  holds (compressor s) (contents (db s)) kvs ->
  values_ok (engine (db s)) ->
  cancel_at ctx = None ->
  is_int limit ->
  pushed (Scan s ctx start exclusiveEnd limit) =
    map EvItem
      (up_to limit (filter (fun kv => in_range start exclusiveEnd (kv_Key kv)) kvs))
    ++ [EvFinished] /\
  ascending
    (map kv_Key
       (up_to limit (filter (fun kv => in_range start exclusiveEnd (kv_Key kv)) kvs))).
Proof.
  intros S H R Hctx Hint.
  pose proof (holds_ascending _ _ _ H S) as A.
  split.
  - unfold Scan, View, NewIterator. simpl.
    assert (Hh : holds (compressor s) (Seek start (contents (db s)))
                   (filter (fun kv => bytes_leb start (kv_Key kv)) kvs)).
    { rewrite Seek_filter by assumption.
      now apply (holds_filter _ _ _ (bytes_leb start)). }
    assert (Hlim : limit <= 0 \/ (0 <= 0 < limit /\ is_int limit)).
    { destruct (Z_le_gt_dec limit 0); [now left | right; split; [lia | exact Hint]]. }
    destruct (Scan_loop_run s
                {| txn_engine := engine (db s); snapshot := contents (db s) |}
                exclusiveEnd limit _ _ R Hh
                0 (NewStoreIterator ctx) Hctx Hlim) as (I1 & _ & I3).
    destruct (Scan_loop _ _ _ _ _ _ _) as [it r]. simpl in I1, I3. subst r.
    rewrite pushed_terminate, I3. simpl. f_equal. f_equal.
    unfold budget, up_to. rewrite Z.sub_0_r.
    rewrite (take_while_filter kv_Key (fun k => bytes_ltb k exclusiveEnd)).
    + now rewrite filter_filter.
    + now apply ascending_filter.
    + intros k k' _. apply bytes_ltb_closed.
  - unfold up_to. destruct (0 <? limit).
    + apply ascending_firstn. now apply ascending_filter.
    + now apply ascending_filter.
Qed.

Lemma C2_witness :
  pushed (Scan abcd_store Background key_b key_d 0) =
    [EvItem {| kv_Key := key_b; kv_Value := val_2 |};
     EvItem {| kv_Key := key_c; kv_Value := val_3 |}; EvFinished] /\
  pushed (Scan abcd_store Background key_a key_d 1) =
    [EvItem {| kv_Key := key_a; kv_Value := val_1 |}; EvFinished].
Proof.
  assert (S : sorted (contents (db abcd_store))) by (repeat constructor).
  assert (H : holds (compressor abcd_store) (contents (db abcd_store)) abcd_pairs)
    by (repeat constructor).
  assert (R : values_ok (engine (db abcd_store))) by (intro k; reflexivity).
  split.
  - apply (proj1 (C2_scan_range_limit abcd_store Background key_b key_d 0
                    abcd_pairs S H R eq_refl ltac:(unfold is_int; lia))).
  - apply (proj1 (C2_scan_range_limit abcd_store Background key_a key_d 1
                    abcd_pairs S H R eq_refl ltac:(unfold is_int; lia))).
Defined.

(** The loop of [Prefix] when nothing fails: it pushes the pairs of the
    cursor up to the first key without the prefix. *)
Lemma Prefix_loop_run s txn p it items :
  (forall k, value_fault (txn_engine txn) k = None) ->
  holds (compressor s) it items ->
  forall count kr,
    cancel_at (it_ctx kr) = None ->
    snd (Prefix_loop s txn p it count kr) = None /\
    it_ctx (fst (Prefix_loop s txn p it count kr)) = it_ctx kr /\
    pushed (fst (Prefix_loop s txn p it count kr)) =
      pushed kr ++
      map EvItem (take_while (fun kv => HasPrefix (kv_Key kv) p) items).
Proof.
  intros Hvf. induction 1 as [|[k c] kv it items [Hk Hv] _ IH];
    intros count kr Hctx.
  - simpl. now rewrite app_nil_r.
  - simpl in Hk, Hv. subst k. simpl.
    destruct (HasPrefix (kv_Key kv) p) eqn:Ep.
    2:{ simpl. now rewrite app_nil_r. }
    unfold Context_Err. rewrite ctx_Err_never by assumption.
    unfold ValueCopy. simpl. rewrite Hvf, Hv. unfold KeyCopy. simpl.
    rewrite KV_eta.
    set (kr1 := PushItem kv _).
    destruct (IH (int_incr count) kr1 Hctx) as (I1 & I2 & I3).
    repeat split; auto.
    rewrite I3. simpl. now rewrite <- app_assoc.
Qed.

(** Over a cursor that starts at or above the prefix, the loop of
    [Prefix] and the loop of an unbounded [Scan] up to
    [prefix_incremented] are the same computation, whatever the caller
    and the engine do. *)
Lemma Prefix_loop_is_Scan_loop s txn p e it :
  prefix_incremented p = Some e ->
  Forall (fun st => bytes_leb p (fst st) = true) it ->
  forall count kr,
    Prefix_loop s txn p it count kr = Scan_loop s txn e 0 it count kr.
Proof.
  intros Hp. induction 1 as [|[k v] it Hk _ IH]; intros count kr.
  - reflexivity.
  - simpl in Hk. simpl. rewrite Compare_lt.
    rewrite (prefix_incremented_range p e k Hp Hk).
    destruct (HasPrefix k p); [|reflexivity].
    destruct (ctx_Err (it_ctx kr) (items_pushed kr)) as [err|]; [reflexivity|].
    destruct (ValueCopy txn _) as [value|err]; [|reflexivity].
    destruct (Decompress (compressor s) value) as [value'|err]; [|reflexivity].
    rewrite andb_false_r. apply IH.
Qed.

Lemma HasPrefix_closed p k k' :
  bytes_leb p k = true ->
  HasPrefix k p = false -> bytes_cmp k k' = Lt -> HasPrefix k' p = false.
Proof.
  intros Hle Hk Hlt. destruct (HasPrefix k' p) eqn:E; auto.
  now rewrite (HasPrefix_interval p k k' Hle Hlt E) in Hk.
Qed.

(** C3. On a sorted table, [Prefix(p)] is the same computation as
    [Scan(p, prefix_incremented(p), 0)]; and with the stored pairs [kvs]
    in the table, a caller that does not cancel and an engine that reads
    without failing, it pushes exactly the pairs whose key starts with
    [p], in ascending key order, followed by the end of the stream. *)
Theorem C3_prefix_scan s ctx p kvs :
  sorted (contents (db s)) ->
  (forall ctx' e,
     prefix_incremented p = Some e -> Prefix s ctx' p = Scan s ctx' p e 0) /\
  (holds (compressor s) (contents (db s)) kvs ->
   values_ok (engine (db s)) ->
   cancel_at ctx = None ->
   pushed (Prefix s ctx p) =
     map EvItem (filter (fun kv => HasPrefix (kv_Key kv) p) kvs) ++ [EvFinished] /\
   ascending (map kv_Key (filter (fun kv => HasPrefix (kv_Key kv) p) kvs))).
Proof.
  intros S. split.
  - intros ctx' e Hp. unfold Prefix, Scan, View, NewIterator. simpl.
    f_equal. apply Prefix_loop_is_Scan_loop; auto.
    now apply Seek_lower_bound.
  - intros H R Hctx.
    pose proof (holds_ascending _ _ _ H S) as A.
    split; [|now apply ascending_filter].
    unfold Prefix, View, NewIterator. simpl.
    assert (Hh : holds (compressor s) (Seek p (contents (db s)))
                   (filter (fun kv => bytes_leb p (kv_Key kv)) kvs)).
    { rewrite Seek_filter by assumption.
      now apply (holds_filter _ _ _ (bytes_leb p)). }
    destruct (Prefix_loop_run s
                {| txn_engine := engine (db s); snapshot := contents (db s) |}
                p _ _ R Hh
                0 (NewStoreIterator ctx) Hctx) as (I1 & _ & I3).
    destruct (Prefix_loop _ _ _ _ _ _) as [it r]. simpl in I1, I3. subst r.
    rewrite pushed_terminate, I3. simpl. f_equal. f_equal.
    rewrite (take_while_filter kv_Key (fun k => HasPrefix k p)).
    + rewrite filter_filter. apply filter_ext. intros kv.
      destruct (HasPrefix (kv_Key kv) p) eqn:E.
      * now rewrite (HasPrefix_leb _ _ E).
      * apply andb_false_r.
    + now apply ascending_filter.
    + intros k k' Hin. apply HasPrefix_closed.
      apply in_map_iff in Hin. destruct Hin as (kv & <- & Hin).
      now apply filter_In in Hin.
Qed.

Lemma C3_witness :
  pushed (Prefix prefix_store Background key_a) =
    [EvItem {| kv_Key := key_ab; kv_Value := val_1 |};
     EvItem {| kv_Key := key_ac; kv_Value := val_2 |}; EvFinished] /\
  Prefix prefix_store cancelled key_a = Scan prefix_store cancelled key_a key_b 0.
Proof.
  assert (S : sorted (contents (db prefix_store))) by (repeat constructor).
  assert (H : holds (compressor prefix_store) (contents (db prefix_store)) prefix_pairs)
    by (repeat constructor).
  assert (R : values_ok (engine (db prefix_store))) by (intro k; reflexivity).
  destruct (C3_prefix_scan prefix_store Background key_a prefix_pairs S) as [E P].
  split.
  - apply (proj1 (P H R eq_refl)).
  - apply (E cancelled key_b). reflexivity.
Defined.

(** *** BatchGet *)

Lemma BatchGet_loop_cons s txn key keys kr :
  BatchGet_loop s txn (key :: keys) kr =
  match read_value s txn key with
  | Err err => (kr, Some err)
  | Ok value =>
      BatchGet_loop s txn keys (PushItem {| kv_Key := key; kv_Value := value |} kr)
  end.
Proof.
  simpl. unfold read_value, txn_Get.
  destruct (get_fault (txn_engine txn) key); [reflexivity|].
  destruct (lookup key (snapshot txn)); [|reflexivity].
  destruct (ValueCopy txn _); [|reflexivity].
  reflexivity.
Qed.

Lemma present_read_value s k v :
  present s k v -> read_value s (view_of s) k = Ok v.
Proof.
  intros (Hg & Hv & c & Hl & Hd).
  unfold read_value, txn_Get, ValueCopy, view_of. simpl.
  rewrite Hg, Hl. simpl. now rewrite Hv.
Qed.

Lemma absent_read_value s k :
  get_fault (engine (db s)) k = None -> lookup k (contents (db s)) = None ->
  read_value s (view_of s) k = Err ErrKeyNotFound.
Proof.
  intros Hg Hl. unfold read_value, txn_Get, view_of. simpl.
  now rewrite Hg, Hl.
Qed.

(** The loop of [BatchGet] over keys that are all present pushes one
    pair per key, in the order of the keys, and goes on with the rest. *)
Lemma BatchGet_loop_run s keys vals :
  Forall2 (present s) keys vals ->
  forall rest kr,
    exists kr',
      BatchGet_loop s (view_of s) (keys ++ rest) kr =
        BatchGet_loop s (view_of s) rest kr' /\
      pushed kr' = pushed kr ++ map EvItem (mkKVs keys vals).
Proof.
  induction 1 as [|k v keys vals Hk _ IH]; intros rest kr.
  - exists kr. split; [reflexivity|]. simpl. now rewrite app_nil_r.
  - rewrite <- app_comm_cons, BatchGet_loop_cons.
    rewrite (present_read_value s k v Hk).
    destruct (IH rest (PushItem {| kv_Key := k; kv_Value := v |} kr))
      as (kr' & E & P).
    exists kr'. split; [exact E|].
    rewrite P. unfold mkKVs. simpl. now rewrite <- app_assoc.
Qed.

(** C4. When every requested key is present, [BatchGet(keys)] pushes one
    pair per key, in the order of the request, then the end of the
    stream; and when the read of a key fails after keys that were read,
    it pushes the pairs of those keys and then that error, as the
    terminal event. *)
Theorem C4_batch_get_order s ctx keys vals :
  Forall2 (present s) keys vals ->
  pushed (BatchGet s ctx keys) = map EvItem (mkKVs keys vals) ++ [EvFinished] /\
  (forall k err rest,
     read_value s (view_of s) k = Err err ->
     pushed (BatchGet s ctx (keys ++ k :: rest)) =
       map EvItem (mkKVs keys vals) ++ [EvError err]).
Proof.
  intros H. split.
  - destruct (BatchGet_loop_run s keys vals H [] (NewStoreIterator ctx))
      as (kr' & E & P).
    unfold BatchGet, View. fold (view_of s).
    rewrite app_nil_r in E. rewrite E. simpl. now rewrite P.
  - intros k err rest Hk.
    destruct (BatchGet_loop_run s keys vals H (k :: rest) (NewStoreIterator ctx))
      as (kr' & E & P).
    unfold BatchGet, View. fold (view_of s).
    rewrite E, BatchGet_loop_cons, Hk. simpl. now rewrite P.
Qed.

Lemma C4_witness :
  pushed (BatchGet abcd_store Background [key_b; key_a; key_c]) =
    [EvItem {| kv_Key := key_b; kv_Value := val_2 |};
     EvItem {| kv_Key := key_a; kv_Value := val_1 |};
     EvItem {| kv_Key := key_c; kv_Value := val_3 |}; EvFinished] /\
  pushed (BatchGet (store_of [(key_a, stored val_1); (key_b, val_2)] None)
            Background [key_a; key_b; key_a]) =
    [EvItem {| kv_Key := key_a; kv_Value := val_1 |}; EvError (ErrCodec 1)].
Proof.
  split.
  - assert (H : Forall2 (present abcd_store)
                  [key_b; key_a; key_c] [val_2; val_1; val_3]).
    { repeat apply Forall2_cons; try apply Forall2_nil;
        (split; [reflexivity | split; [reflexivity |]]);
        eexists; split; reflexivity. }
    apply (proj1 (C4_batch_get_order abcd_store Background
                    [key_b; key_a; key_c] [val_2; val_1; val_3] H)).
  - assert (H : Forall2 (present (store_of [(key_a, stored val_1); (key_b, val_2)] None))
                  [key_a] [val_1]).
    { repeat apply Forall2_cons; try apply Forall2_nil;
        (split; [reflexivity | split; [reflexivity |]]);
        eexists; split; reflexivity. }
    apply (proj2 (C4_batch_get_order _ Background [key_a] [val_1] H)
             key_b (ErrCodec 1) [key_a]).
    reflexivity.
Defined.

(** C10. When a requested key is absent after keys that are present,
    [BatchGet] pushes the pairs of the keys before it and then the
    engine's [ErrKeyNotFound] as the terminal event, whatever keys
    follow in the request: no pair for the absent key, nothing for the
    keys after it; [Get] on the same key answers [ErrNotFound]. *)
Theorem C10_batch_get_absent_key s ctx keys vals k rest :
  Forall2 (present s) keys vals ->
  get_fault (engine (db s)) k = None ->
  lookup k (contents (db s)) = None ->
  pushed (BatchGet s ctx (keys ++ k :: rest)) =
    map EvItem (mkKVs keys vals) ++ [EvError ErrKeyNotFound] /\
  Get s k = Err ErrNotFound.
Proof.
  intros H Hg Hl. split.
  - destruct (BatchGet_loop_run s keys vals H (k :: rest) (NewStoreIterator ctx))
      as (kr' & E & P).
    unfold BatchGet, View. fold (view_of s).
    rewrite E, BatchGet_loop_cons, (absent_read_value s k Hg Hl). simpl.
    now rewrite P.
  - rewrite Get_unfold. now rewrite Hg, Hl.
Qed.

Lemma C10_witness :
  pushed (BatchGet abcd_store Background [key_b; key_ab; key_c]) =
    [EvItem {| kv_Key := key_b; kv_Value := val_2 |}; EvError ErrKeyNotFound].
Proof.
  assert (H : Forall2 (present abcd_store) [key_b] [val_2]).
  { repeat apply Forall2_cons; try apply Forall2_nil;
      (split; [reflexivity | split; [reflexivity |]]);
      eexists; split; reflexivity. }
  apply (proj1 (C10_batch_get_absent_key abcd_store Background
                  [key_b] [val_2] key_ab [key_c] H eq_refl eq_refl)).
Defined.

(** *** Terminal events *)

(** The loop returns here without pushing anything more. *)
Ltac loop_exits := exists []; simpl; now rewrite app_nil_r.

Lemma BatchGet_loop_items s txn keys :
  forall kr, exists kvs,
    pushed (fst (BatchGet_loop s txn keys kr)) = pushed kr ++ map EvItem kvs /\
    polls (fst (BatchGet_loop s txn keys kr)) = polls kr.
Proof.
  induction keys as [|k keys IH]; intros kr.
  - exists []. simpl. now rewrite app_nil_r.
  - rewrite BatchGet_loop_cons.
    destruct (read_value s txn k) as [v|err].
    + destruct (IH (PushItem {| kv_Key := k; kv_Value := v |} kr)) as (kvs & P & Q).
      exists ({| kv_Key := k; kv_Value := v |} :: kvs).
      rewrite P, Q. simpl. now rewrite <- app_assoc.
    + exists []. simpl. now rewrite app_nil_r.
Qed.

Lemma Scan_loop_items s txn e limit bit :
  forall count sit, exists kvs,
    pushed (fst (Scan_loop s txn e limit bit count sit)) =
      pushed sit ++ map EvItem kvs.
Proof.
  induction bit as [|[k v] bit IH]; intros count sit.
  - loop_exits.
  - simpl.
    destruct (Compare k e =? -1); [|loop_exits].
    destruct (ctx_Err (it_ctx sit) (items_pushed sit)); [loop_exits|].
    destruct (ValueCopy txn _) as [value|err]; [|loop_exits].
    destruct (Decompress (compressor s) value) as [value'|err]; [|loop_exits].
    match goal with
    | |- context [PushItem ?kv ?it] => set (new := kv); set (sit1 := PushItem new it)
    end.
    destruct ((int_incr count =? limit) && (0 <? limit)).
    + exists [new]. reflexivity.
    + destruct (IH (int_incr count) sit1) as (kvs & P).
      exists (new :: kvs). rewrite P. simpl. now rewrite <- app_assoc.
Qed.

Lemma Prefix_loop_items s txn p it :
  forall count kr, exists kvs,
    pushed (fst (Prefix_loop s txn p it count kr)) = pushed kr ++ map EvItem kvs.
Proof.
  induction it as [|[k v] it IH]; intros count kr.
  - loop_exits.
  - simpl.
    destruct (HasPrefix k p); [|loop_exits].
    destruct (ctx_Err (it_ctx kr) (items_pushed kr)); [loop_exits|].
    destruct (ValueCopy txn _) as [value|err]; [|loop_exits].
    destruct (Decompress (compressor s) value) as [value'|err]; [|loop_exits].
    match goal with
    | |- context [PushItem ?kv ?it] => set (new := kv); set (kr1 := PushItem new it)
    end.
    destruct (IH (int_incr count) kr1) as (kvs & P).
    exists (new :: kvs). rewrite P. simpl. now rewrite <- app_assoc.
Qed.

Lemma terminate_one_terminal_last (out : Iterator * option error) kvs :
  pushed (fst out) = map EvItem kvs ->
  one_terminal_last (pushed (terminate out)).
Proof.
  destruct out as [it r]. intros P. simpl in P.
  rewrite pushed_terminate, P.
  exists kvs. eexists. split; [reflexivity|]. now destruct r.
Qed.

(** C8. Whatever the store, the caller and the engine do, what the
    producers of [Scan], [Prefix] and [BatchGet] push is a sequence of
    items followed by exactly one terminal event, error or finished. *)
Theorem C8_one_terminal_event s ctx start exclusiveEnd limit prefix keys :
  one_terminal_last (pushed (Scan s ctx start exclusiveEnd limit)) /\
  one_terminal_last (pushed (Prefix s ctx prefix)) /\
  one_terminal_last (pushed (BatchGet s ctx keys)).
Proof.
  split; [|split].
  - unfold Scan, View.
    destruct (Scan_loop_items s (view_of s) exclusiveEnd limit
                (Seek start (NewIterator (view_of s))) 0 (NewStoreIterator ctx))
      as (kvs & P).
    eapply terminate_one_terminal_last. exact P.
  - unfold Prefix, View.
    destruct (Prefix_loop_items s (view_of s) prefix
                (Seek prefix (NewIterator (view_of s))) 0 (NewStoreIterator ctx))
      as (kvs & P).
    eapply terminate_one_terminal_last. exact P.
  - unfold BatchGet, View.
    destruct (BatchGet_loop_items s (view_of s) keys (NewStoreIterator ctx))
      as (kvs & P & _).
    eapply terminate_one_terminal_last. exact P.
Qed.

(** *** Cancellation *)

(** The loop returns here: the items pushed and the polls made are those
    of the iterator it was given, but for one more poll. *)
Ltac loop_stops := simpl; split; [unfold items_pushed; simpl; lia | auto].

Lemma items_pushed_PushItem kv it :
  items_pushed (PushItem kv it) = S (items_pushed it).
Proof.
  unfold items_pushed, PushItem, push. simpl.
  rewrite filter_app, length_app. simpl. lia.
Qed.

Lemma items_pushed_terminate out :
  items_pushed (terminate out) = items_pushed (fst out) /\
  polls (terminate out) = polls (fst out).
Proof.
  destruct out as [it [err|]]; unfold items_pushed; simpl;
    rewrite filter_app, length_app; simpl; split; auto; lia.
Qed.

Lemma ctx_Err_pending ctx n m :
  cancel_at ctx = Some n -> ctx_Err ctx m = None -> (m < n)%nat.
Proof.
  unfold ctx_Err. intros ->. destruct (Nat.leb_spec n m); [discriminate|auto].
Qed.

(** The loop of [Scan] polls the caller's token before each item it
    pushes, and pushes nothing once the token is triggered. *)
Lemma Scan_loop_polled s txn e limit bit :
  forall count sit,
    (items_pushed (fst (Scan_loop s txn e limit bit count sit)) + polls sit
     <= polls (fst (Scan_loop s txn e limit bit count sit)) + items_pushed sit)%nat /\
    (forall n, cancel_at (it_ctx sit) = Some n -> (items_pushed sit <= n)%nat ->
       (items_pushed (fst (Scan_loop s txn e limit bit count sit)) <= n)%nat).
Proof.
  induction bit as [|[k v] bit IH]; intros count sit.
  - simpl. split; [lia | auto].
  - simpl.
    destruct (Compare k e =? -1); [|loop_stops].
    destruct (ctx_Err (it_ctx sit) (items_pushed sit)) eqn:EC; [loop_stops|].
    destruct (ValueCopy txn _) as [value|err]; [|loop_stops].
    destruct (Decompress (compressor s) value) as [value'|err]; [|loop_stops].
    match goal with
    | |- context [PushItem ?kv ?it] => set (new := kv); set (sit0 := it)
    end.
    assert (Hi : items_pushed (PushItem new sit0) = S (items_pushed sit))
      by (rewrite items_pushed_PushItem; reflexivity).
    destruct ((int_incr count =? limit) && (0 <? limit)).
    + simpl fst. rewrite Hi. simpl. split; [lia|].
      intros n Hn _. apply (ctx_Err_pending _ _ _ Hn EC).
    + destruct (IH (int_incr count) (PushItem new sit0)) as [I1 I2].
      rewrite Hi in I1, I2. simpl in I1. split; [lia|].
      intros n Hn _. apply (I2 n Hn). apply (ctx_Err_pending _ _ _ Hn EC).
Qed.

Lemma Prefix_loop_polled s txn p it :
  forall count kr,
    (items_pushed (fst (Prefix_loop s txn p it count kr)) + polls kr
     <= polls (fst (Prefix_loop s txn p it count kr)) + items_pushed kr)%nat /\
    (forall n, cancel_at (it_ctx kr) = Some n -> (items_pushed kr <= n)%nat ->
       (items_pushed (fst (Prefix_loop s txn p it count kr)) <= n)%nat).
Proof.
  induction it as [|[k v] it IH]; intros count kr.
  - simpl. split; [lia | auto].
  - simpl.
    destruct (HasPrefix k p); [|loop_stops].
    destruct (ctx_Err (it_ctx kr) (items_pushed kr)) eqn:EC; [loop_stops|].
    destruct (ValueCopy txn _) as [value|err]; [|loop_stops].
    destruct (Decompress (compressor s) value) as [value'|err]; [|loop_stops].
    match goal with
    | |- context [PushItem ?kv ?it] => set (new := kv); set (kr0 := it)
    end.
    assert (Hi : items_pushed (PushItem new kr0) = S (items_pushed kr))
      by (rewrite items_pushed_PushItem; reflexivity).
    destruct (IH (int_incr count) (PushItem new kr0)) as [I1 I2].
    rewrite Hi in I1, I2. simpl in I1. split; [lia|].
    intros n Hn _. apply (I2 n Hn). apply (ctx_Err_pending _ _ _ Hn EC).
Qed.

(** [Scan] and [Prefix] check the token at least once per item, and a
    token triggered after [n] items stops them at [n] items. *)
Lemma Scan_checks_cancellation s ctx start exclusiveEnd limit :
  (items_pushed (Scan s ctx start exclusiveEnd limit)
   <= polls (Scan s ctx start exclusiveEnd limit))%nat /\
  (forall n, cancel_at ctx = Some n ->
     (items_pushed (Scan s ctx start exclusiveEnd limit) <= n)%nat).
Proof.
  unfold Scan, View.
  match goal with |- context [terminate ?o] => set (out := o) end.
  destruct (items_pushed_terminate out) as [-> ->].
  destruct (Scan_loop_polled s (view_of s) exclusiveEnd limit
              (Seek start (NewIterator (view_of s))) 0 (NewStoreIterator ctx))
    as [I1 I2].
  unfold view_of in I1, I2. fold out in I1, I2.
  change (polls (NewStoreIterator ctx)) with 0%nat in I1.
  change (items_pushed (NewStoreIterator ctx)) with 0%nat in I1, I2.
  split.
  - lia.
  - intros n Hn. apply I2; [exact Hn | lia].
Qed.

Lemma Prefix_checks_cancellation s ctx prefix :
  (items_pushed (Prefix s ctx prefix) <= polls (Prefix s ctx prefix))%nat /\
  (forall n, cancel_at ctx = Some n ->
     (items_pushed (Prefix s ctx prefix) <= n)%nat).
Proof.
  unfold Prefix, View.
  match goal with |- context [terminate ?o] => set (out := o) end.
  destruct (items_pushed_terminate out) as [-> ->].
  destruct (Prefix_loop_polled s (view_of s) prefix
              (Seek prefix (NewIterator (view_of s))) 0 (NewStoreIterator ctx))
    as [I1 I2].
  unfold view_of in I1, I2. fold out in I1, I2.
  change (polls (NewStoreIterator ctx)) with 0%nat in I1.
  change (items_pushed (NewStoreIterator ctx)) with 0%nat in I1, I2.
  split.
  - lia.
  - intros n Hn. apply I2; [exact Hn | lia].
Qed.

(** A token triggered when the loop of [Scan] is about to produce an
    item ends the loop with the token's error. *)
Lemma Scan_loop_cancelled s txn e limit k v bit count sit n :
  cancel_at (it_ctx sit) = Some n -> (n <= items_pushed sit)%nat ->
  Compare k e = -1 ->
  snd (Scan_loop s txn e limit ((k, v) :: bit) count sit) =
    Some (ErrContext (cancel_cause (it_ctx sit))) /\
  pushed (fst (Scan_loop s txn e limit ((k, v) :: bit) count sit)) = pushed sit.
Proof.
  intros Hn Hle Hc. simpl. rewrite Hc. simpl.
  unfold ctx_Err. rewrite Hn.
  destruct (Nat.leb_spec n (items_pushed sit)); [now split | lia].
Qed.

Example Scan_cancelled_after_first_item :
  pushed (Scan abcd_store {| cancel_at := Some 1%nat; cancel_cause := Canceled |}
            key_a key_d 0) =
    [EvItem {| kv_Key := key_a; kv_Value := val_1 |}; EvError (ErrContext Canceled)].
Proof. reflexivity. Qed.

Lemma BatchGet_loop_ctx s txn keys :
  forall kr kr', pushed kr = pushed kr' ->
    pushed (fst (BatchGet_loop s txn keys kr)) =
      pushed (fst (BatchGet_loop s txn keys kr')) /\
    snd (BatchGet_loop s txn keys kr) = snd (BatchGet_loop s txn keys kr').
Proof.
  induction keys as [|k keys IH]; intros kr kr' E.
  - now split.
  - rewrite !BatchGet_loop_cons.
    destruct (read_value s txn k) as [v|err]; [|now split].
    apply IH. unfold PushItem, push. simpl. now rewrite E.
Qed.

(** C7, for [BatchGet]: its producer never polls the caller's token, and
    what it pushes does not depend on the token; with a token triggered
    before the call it still reads every key, pushes every pair and ends
    the stream with finished. *)
Theorem C7_batch_get_ignores_cancellation :
  (forall s ctx keys,
     polls (BatchGet s ctx keys) = 0%nat /\
     pushed (BatchGet s ctx keys) = pushed (BatchGet s Background keys)) /\
  pushed (BatchGet abcd_store cancelled [key_b; key_a]) =
    [EvItem {| kv_Key := key_b; kv_Value := val_2 |};
     EvItem {| kv_Key := key_a; kv_Value := val_1 |}; EvFinished].
Proof.
  split; [|reflexivity].
  intros s ctx keys. unfold BatchGet, View. split.
  - destruct (BatchGet_loop_items s (view_of s) keys (NewStoreIterator ctx))
      as (kvs & _ & Q).
    fold (view_of s).
    destruct (BatchGet_loop s (view_of s) keys (NewStoreIterator ctx)) as [it r].
    simpl in Q. now destruct r.
  - destruct (BatchGet_loop_ctx s (view_of s) keys
                (NewStoreIterator ctx) (NewStoreIterator Background) eq_refl)
      as [P R].
    fold (view_of s).
    destruct (BatchGet_loop s (view_of s) keys (NewStoreIterator ctx)) as [it r].
    destruct (BatchGet_loop s (view_of s) keys (NewStoreIterator Background))
      as [it' r'].
    simpl in P, R. subst r'. rewrite !pushed_terminate. now rewrite P.
Qed.

(** ** Flushing *)

Lemma bytes_cmp_Eq_iff a b : bytes_cmp a b = Eq <-> a = b.
Proof. split; [apply bytes_cmp_eq | intros ->; apply bytes_cmp_refl]. Qed.

Lemma lookup_commit k staged t :
  lookup k (commit staged t) =
  match last_write k staged with
  | Some v => Some v
  | None => lookup k t
  end.
Proof.
  revert t. induction staged as [|e staged IH]; intros t; [reflexivity|].
  simpl. rewrite IH. destruct (last_write k staged); [reflexivity|].
  destruct (bytes_cmp k (Key e)) eqn:E.
  - apply bytes_cmp_eq in E. subst k. apply lookup_upsert_same.
  - apply lookup_upsert_other. intros ->. now rewrite bytes_cmp_refl in E.
  - apply lookup_upsert_other. intros ->. now rewrite bytes_cmp_refl in E.
Qed.

Lemma DB_eta d : {| engine := engine d; contents := contents d |} = d.
Proof. now destruct d. Qed.

Lemma with_batch_same s wb : writeBatch s = Some wb -> with_batch s (db s) (Some wb) = s.
Proof. destruct s. simpl. now intros ->. Qed.

Lemma FlushPuts_ok s s' :
  FlushPuts s = (s', None) ->
  engine (db s') = engine (db s) /\ compressor s' = compressor s /\
  contents (db s') = eventual s /\ pending (current_batch s') = [].
Proof.
  unfold FlushPuts, eventual, current_batch.
  destruct (writeBatch s) as [wb|] eqn:E.
  - destruct (Flush (db s) wb) as [d [err|]] eqn:EF; [discriminate|].
    intros H; inversion H; subst s'; clear H. simpl.
    apply Flush_ok in EF. destruct EF as [He Hc]. auto.
  - intros H; inversion H; subst s'; clear H. rewrite E. simpl. auto.
Qed.

(** X1. A successful [FlushPuts] changes the keys of the batch and no other:
    a key with no staged entry reads as before, a key with staged
    entries holds the value of the last one. *)
Theorem FlushPuts_last_write_wins s s' :
  FlushPuts s = (s', None) ->
  (forall k, last_write k (pending (current_batch s)) = None ->
             Get s' k = Get s k) /\
  (forall k c, last_write k (pending (current_batch s)) = Some c ->
               lookup k (contents (db s')) = Some c).
Proof.
  intros H. apply FlushPuts_ok in H. destruct H as (He & Hc & Ht & _).
  unfold eventual in Ht. split.
  - intros k Hk. rewrite !Get_unfold, He, Hc, Ht, lookup_commit, Hk. reflexivity.
  - intros k c Hk. now rewrite Ht, lookup_commit, Hk.
Qed.

Lemma FlushPuts_last_write_wins_witness :
  lookup key_a (contents (db (fst (FlushPuts
     (store_of abcd_table
        (Some {| pending := [NewEntry key_a val_2; NewEntry key_a val_3] |}))))))
    = Some val_3 /\
  Get (fst (FlushPuts
     (store_of abcd_table
        (Some {| pending := [NewEntry key_a val_2; NewEntry key_a val_3] |}))))
      key_b = Ok val_2.
Proof.
  destruct (FlushPuts_last_write_wins
              (store_of abcd_table
                 (Some {| pending := [NewEntry key_a val_2; NewEntry key_a val_3] |}))
              _ eq_refl) as [H1 H2].
  split.
  - apply H2. reflexivity.
  - rewrite H1; reflexivity.
Defined.

(** X2. After a successful [FlushPuts] a second one, the engine committing
    the empty batch, returns nil and leaves the store as it is. *)
Theorem FlushPuts_twice s s1 :
  FlushPuts s = (s1, None) ->
  flush_fault (engine (db s)) [] = None ->
  FlushPuts s1 = (s1, None).
Proof.
  unfold FlushPuts at 1.
  destruct (writeBatch s) as [wb|] eqn:E.
  - destruct (Flush (db s) wb) as [d [err|]] eqn:EF; [discriminate|].
    intros H; inversion H; subst s1; clear H.
    apply Flush_ok in EF. destruct EF as [He Hc]. intros Hf.
    unfold FlushPuts, Flush, NewWriteBatch, with_batch. simpl.
    rewrite He, Hf. simpl. now rewrite <- He, DB_eta.
  - intros H; inversion H; subst s1; clear H. intros _.
    unfold FlushPuts. now rewrite E.
Qed.

Lemma FlushPuts_twice_witness :
  FlushPuts (fst (FlushPuts full_store)) = (fst (FlushPuts full_store), None).
Proof.
  apply (FlushPuts_twice full_store (fst (FlushPuts full_store))); reflexivity.
Defined.

(** ** What a Put leaves for the next flush *)

Lemma Put_cases s k v :
  let e := NewEntry k (Compress (compressor s) v) in
  let wb := current_batch s in
  Put s k v =
  match entry_fault (engine (db s)) e with
  | Some _ => (with_batch s (db s) (Some wb), None)
  | None =>
      if txn_full (engine (db s)) (pending wb) e then
        match flush_fault (engine (db s)) (pending wb) with
        | Some c => (with_batch s (db s) (Some wb), Some (ErrBadger c))
        | None =>
            let d := {| engine := engine (db s);
                        contents := commit (pending wb) (contents (db s)) |} in
            if txn_full (engine (db s)) [] e
            then (with_batch s d (Some {| pending := [] |}),
                  Some (ErrWrap "after txn too big" ErrTxnTooBig))
            else (with_batch s d (Some {| pending := [e] |}), None)
        end
      else (with_batch s (db s) (Some {| pending := pending wb ++ [e] |}), None)
  end.
Proof.
  intros e wb. unfold Put. fold (current_batch s). fold wb. fold e.
  unfold SetEntry.
  destruct (entry_fault (engine (db s)) e) eqn:Ef; [reflexivity|].
  destruct (txn_full (engine (db s)) (pending wb) e); [|reflexivity].
  unfold Flush.
  destruct (flush_fault (engine (db s)) (pending wb)); [reflexivity|].
  unfold NewWriteBatch. simpl. rewrite Ef.
  now destruct (txn_full (engine (db s)) [] e).
Qed.

(** ** Reads see the committed table only *)

Lemma BatchGet_loop_ext s s' txn keys :
  compressor s = compressor s' ->
  forall kr, BatchGet_loop s txn keys kr = BatchGet_loop s' txn keys kr.
Proof.
  intros H. induction keys as [|k keys IH]; intros kr; [reflexivity|].
  simpl. rewrite H.
  destruct (txn_Get txn k); [|reflexivity].
  destruct (ValueCopy txn a); [|reflexivity].
  destruct (Decompress (compressor s') a0); [|reflexivity].
  apply IH.
Qed.

Lemma Scan_loop_ext s s' txn e limit bit :
  compressor s = compressor s' ->
  forall count sit,
    Scan_loop s txn e limit bit count sit = Scan_loop s' txn e limit bit count sit.
Proof.
  intros H. induction bit as [|[k v] bit IH]; intros count sit; [reflexivity|].
  simpl. rewrite H.
  destruct (Compare k e =? -1); [|reflexivity].
  destruct (ctx_Err (it_ctx sit) (items_pushed sit)); [reflexivity|].
  destruct (ValueCopy txn _) as [value|err]; [|reflexivity].
  destruct (Decompress (compressor s') value); [|reflexivity].
  destruct ((int_incr count =? limit) && (0 <? limit)); [reflexivity|].
  apply IH.
Qed.

Lemma Prefix_loop_ext s s' txn p it :
  compressor s = compressor s' ->
  forall count kr,
    Prefix_loop s txn p it count kr = Prefix_loop s' txn p it count kr.
Proof.
  intros H. induction it as [|[k v] it IH]; intros count kr; [reflexivity|].
  simpl. rewrite H.
  destruct (HasPrefix k p); [|reflexivity].
  destruct (ctx_Err (it_ctx kr) (items_pushed kr)); [reflexivity|].
  destruct (ValueCopy txn _) as [value|err]; [|reflexivity].
  destruct (Decompress (compressor s') value); [|reflexivity].
  apply IH.
Qed.

Lemma reads_of_db s s' :
  db s = db s' -> compressor s = compressor s' ->
  (forall key, Get s key = Get s' key) /\
  (forall ctx keys, BatchGet s ctx keys = BatchGet s' ctx keys) /\
  (forall ctx start e limit, Scan s ctx start e limit = Scan s' ctx start e limit) /\
  (forall ctx p, Prefix s ctx p = Prefix s' ctx p).
Proof.
  intros Hd Hc. repeat split; intros.
  - rewrite !Get_unfold. now rewrite Hd, Hc.
  - unfold BatchGet. rewrite Hd. unfold View. f_equal. now apply BatchGet_loop_ext.
  - unfold Scan. rewrite Hd. unfold View. f_equal. now apply Scan_loop_ext.
  - unfold Prefix. rewrite Hd. unfold View. f_equal. now apply Prefix_loop_ext.
Qed.

(** X6. A [Put] into a batch whose transaction has room for the entry
    changes the result of no read: the write is not visible to [Get],
    [BatchGet], [Scan] or [Prefix] before the batch is committed. *)
Theorem Put_with_room_not_visible_before_flush s k v :
  txn_full (engine (db s)) (pending (current_batch s))
    (NewEntry k (Compress (compressor s) v)) = false ->
  (forall key, Get (fst (Put s k v)) key = Get s key) /\
  (forall ctx keys, BatchGet (fst (Put s k v)) ctx keys = BatchGet s ctx keys) /\
  (forall ctx start e limit,
     Scan (fst (Put s k v)) ctx start e limit = Scan s ctx start e limit) /\
  (forall ctx p, Prefix (fst (Put s k v)) ctx p = Prefix s ctx p).
Proof.
  intros H. apply reads_of_db; rewrite Put_cases, H;
    now destruct (entry_fault (engine (db s)) _).
Qed.

Lemma Put_with_room_not_visible_before_flush_witness :
  Get (fst (Put abcd_store key_a val_4)) key_a = Ok val_1 /\
  Get (fst (Put abcd_store key_ab val_4)) key_ab = Err ErrNotFound.
Proof.
  split.
  - rewrite (proj1 (Put_with_room_not_visible_before_flush abcd_store key_a val_4
                      eq_refl)).
    reflexivity.
  - rewrite (proj1 (Put_with_room_not_visible_before_flush abcd_store key_ab val_4
                      eq_refl)).
    reflexivity.
Defined.

(** ** Stores reached by writes *)

Lemma Put_keeps_engine s k v :
  compressor (fst (Put s k v)) = compressor s /\
  engine (db (fst (Put s k v))) = engine (db s).
Proof.
  rewrite Put_cases.
  destruct (entry_fault (engine (db s)) _); [now split|].
  destruct (txn_full (engine (db s)) (pending (current_batch s)) _); [|now split].
  destruct (flush_fault (engine (db s)) _); [now split|].
  now destruct (txn_full (engine (db s)) [] _).
Qed.

Lemma FlushPuts_keeps_engine s :
  compressor (fst (FlushPuts s)) = compressor s /\
  engine (db (fst (FlushPuts s))) = engine (db s).
Proof.
  unfold FlushPuts. destruct (writeBatch s) as [wb|]; [|now split].
  unfold Flush. now destruct (flush_fault (engine (db s)) (pending wb)).
Qed.

Lemma exec_keeps ops :
  forall s, round_trips (compressor s) -> store_ok s ->
    store_ok (exec ops s) /\
    compressor (exec ops s) = compressor s /\
    engine (db (exec ops s)) = engine (db s).
Proof.
  induction ops as [|o ops IH]; intros s RT OK;
    [simpl; split; [exact OK | split; reflexivity]|].
  simpl.
  assert (H : store_ok (step s o) /\ compressor (step s o) = compressor s /\
              engine (db (step s o)) = engine (db s)).
  { destruct o as [k v|]; simpl.
    - split; [now apply Put_store_ok | apply Put_keeps_engine].
    - split; [now apply FlushPuts_store_ok | apply FlushPuts_keeps_engine]. }
  destruct H as (OK' & Hc & He).
  destruct (IH (step s o)) as (I1 & I2 & I3); auto.
  - now rewrite Hc.
  - split; [exact I1 | split; congruence].
Qed.

(** X7. Whatever [Put]s and [FlushPuts] a newly opened store has served,
    failed ones included, its table is in strict key order and every
    value in the table and in the batch is one the codec decompresses. *)
Theorem writes_keep_store_ok ops eng c :
  round_trips c ->
  store_ok (exec ops (opened {| engine := eng; contents := [] |} c)).
Proof.
  intros RT. apply exec_keeps; [exact RT | apply store_ok_empty].
Qed.

Lemma writes_keep_store_ok_witness :
  store_ok (exec [OpPut key_b val_2; OpPut key_a val_1; OpPut key_c val_3;
                  OpFlushPuts; OpPut key_a val_4]
              (opened {| engine := small_engine; contents := [] |} tag_compressor)).
Proof.
  apply writes_keep_store_ok. intro v. reflexivity.
Defined.

Lemma Scan_run s ctx start exclusiveEnd limit kvs :
  sorted (contents (db s)) ->
  holds (compressor s) (contents (db s)) kvs ->
  values_ok (engine (db s)) ->
  cancel_at ctx = None ->
  is_int limit ->
  pushed (Scan s ctx start exclusiveEnd limit) =
    map EvItem
      (up_to limit (filter (fun kv => in_range start exclusiveEnd (kv_Key kv)) kvs))
    ++ [EvFinished].
Proof.
  intros S H R Hctx Hint.
  pose proof (holds_ascending _ _ _ H S) as A.
  unfold Scan, View, NewIterator. simpl.
  assert (Hh : holds (compressor s) (Seek start (contents (db s)))
                 (filter (fun kv => bytes_leb start (kv_Key kv)) kvs)).
  { rewrite Seek_filter by assumption.
    now apply (holds_filter _ _ _ (bytes_leb start)). }
  assert (Hlim : limit <= 0 \/ (0 <= 0 < limit /\ is_int limit)).
  { destruct (Z_le_gt_dec limit 0); [now left | right; split; [lia | exact Hint]]. }
  destruct (Scan_loop_run s
              {| txn_engine := engine (db s); snapshot := contents (db s) |}
              exclusiveEnd limit _ _ R Hh
              0 (NewStoreIterator ctx) Hctx Hlim) as (I1 & _ & I3).
  destruct (Scan_loop _ _ _ _ _ _ _) as [it r]. simpl in I1, I3. subst r.
  rewrite pushed_terminate, I3. simpl. f_equal. f_equal.
  unfold budget, up_to. rewrite Z.sub_0_r.
  rewrite (take_while_filter kv_Key (fun k => bytes_ltb k exclusiveEnd)).
  - now rewrite filter_filter.
  - now apply ascending_filter.
  - intros k k' _. apply bytes_ltb_closed.
Qed.

(** X8. On a store reached from a newly opened one by [Put]s and
    [FlushPuts], a scan whose caller does not cancel, the engine copying
    the values, never ends with an error: it pushes the pairs of the
    table in the range, up to the limit, and finished. *)
Theorem Scan_after_writes ops eng c ctx start exclusiveEnd limit :
  round_trips c ->
  values_ok eng ->
  cancel_at ctx = None ->
  is_int limit ->
  exists kvs,
    holds c (contents (db (exec ops (opened {| engine := eng; contents := [] |} c))))
          kvs /\
    pushed (Scan (exec ops (opened {| engine := eng; contents := [] |} c))
              ctx start exclusiveEnd limit) =
      map EvItem
        (up_to limit (filter (fun kv => in_range start exclusiveEnd (kv_Key kv)) kvs))
      ++ [EvFinished].
Proof.
  intros RT V Hctx Hint.
  destruct (exec_keeps ops (opened {| engine := eng; contents := [] |} c) RT
              (store_ok_empty eng c)) as ((S & D & _) & Hc & He).
  simpl in Hc, He.
  set (s := exec ops _) in *.
  rewrite Hc in D. destruct (decodable_holds _ _ D) as [kvs H].
  exists kvs. split; [exact H|].
  apply Scan_run; auto.
  - now rewrite Hc.
  - now rewrite He.
Qed.

Lemma Scan_after_writes_witness :
  exists kvs,
    holds tag_compressor
      (contents (db (exec [OpPut key_b val_2; OpPut key_a val_1; OpFlushPuts]
                       (opened {| engine := small_engine; contents := [] |}
                          tag_compressor)))) kvs /\
    pushed (Scan (exec [OpPut key_b val_2; OpPut key_a val_1; OpFlushPuts]
                    (opened {| engine := small_engine; contents := [] |}
                       tag_compressor))
              Background key_a key_c 0) =
      map EvItem (up_to 0 (filter (fun kv => in_range key_a key_c (kv_Key kv)) kvs))
      ++ [EvFinished].
Proof.
  apply (Scan_after_writes
           [OpPut key_b val_2; OpPut key_a val_1; OpFlushPuts]
           small_engine tag_compressor Background key_a key_c 0).
  - intro v. reflexivity.
  - intro k. reflexivity.
  - reflexivity.
  - unfold is_int. lia.
Defined.

(** ** Edges of the range *)

Lemma Seek_head start t :
  match Seek start t with
  | [] => True
  | (k, _) :: _ => bytes_ltb k start = false
  end.
Proof.
  induction t as [|[k v] t IH]; simpl; [exact I|].
  unfold bytes_ltb. destruct (bytes_cmp k start) eqn:E; simpl; auto;
    now rewrite E.
Qed.

Lemma bytes_lt_le_trans a b c :
  bytes_ltb a b = true -> bytes_leb b c = true -> bytes_ltb a c = true.
Proof.
  unfold bytes_ltb, bytes_leb. intros H1 H2.
  destruct (bytes_cmp a b) eqn:E1; try discriminate.
  destruct (bytes_cmp b c) eqn:E2; try discriminate.
  - apply bytes_cmp_eq in E2. subst c. now rewrite E1.
  - now rewrite (bytes_cmp_lt_trans a b c E1 E2).
Qed.

(** X9. When [exclusiveEnd] is not above [start] (an empty or nil
    [exclusiveEnd] never is), [Scan] pushes finished and nothing else,
    without polling the token: also for a triggered token and for an
    engine that fails its reads. *)
Theorem Scan_empty_range s ctx start exclusiveEnd limit :
  bytes_leb exclusiveEnd start = true ->
  Scan s ctx start exclusiveEnd limit = PushFinished (NewStoreIterator ctx).
Proof.
  intros H. unfold Scan, View, NewIterator. simpl.
  pose proof (Seek_head start (contents (db s))) as Hh.
  destruct (Seek start (contents (db s))) as [|[k v] bit]; [reflexivity|].
  simpl. rewrite Compare_lt.
  destruct (bytes_ltb k exclusiveEnd) eqn:E; [|reflexivity].
  now rewrite (bytes_lt_le_trans k exclusiveEnd start E H) in Hh.
Qed.

Lemma Scan_empty_range_witness :
  pushed (Scan abcd_store cancelled key_b key_b 0) = [EvFinished] /\
  pushed (Scan abcd_store Background key_a [] 0) = [EvFinished].
Proof.
  split.
  - now rewrite (Scan_empty_range abcd_store cancelled key_b key_b 0 eq_refl).
  - now rewrite (Scan_empty_range abcd_store Background key_a [] 0 eq_refl).
Defined.

Lemma HasPrefix_nil k : HasPrefix k [] = true.
Proof. now destruct k. Qed.

Lemma Seek_nil t : Seek [] t = t.
Proof. destruct t as [|[[|x k] v] t]; reflexivity. Qed.

Lemma take_while_all {A : Type} (f : A -> bool) l :
  (forall x, f x = true) -> take_while f l = l.
Proof.
  intros H. induction l as [|x l IH]; simpl; [reflexivity|].
  now rewrite H, IH.
Qed.

(** X12. [Prefix] with the empty (or nil) prefix streams the whole table,
    whatever the order the engine keeps it in. *)
Theorem Prefix_empty_prefix s ctx kvs :
  holds (compressor s) (contents (db s)) kvs ->
  values_ok (engine (db s)) ->
  cancel_at ctx = None ->
  pushed (Prefix s ctx []) = map EvItem kvs ++ [EvFinished].
Proof.
  intros H R Hctx. unfold Prefix, View, NewIterator. simpl.
  rewrite Seek_nil.
  destruct (Prefix_loop_run s
              {| txn_engine := engine (db s); snapshot := contents (db s) |}
              [] _ _ R H 0 (NewStoreIterator ctx) Hctx) as (I1 & _ & I3).
  destruct (Prefix_loop _ _ _ _ _ _) as [it r]. simpl in I1, I3. subst r.
  rewrite pushed_terminate, I3. simpl.
  now rewrite take_while_all by (intro; apply HasPrefix_nil).
Qed.

Lemma Prefix_empty_prefix_witness :
  pushed (Prefix prefix_store Background []) = map EvItem prefix_pairs ++ [EvFinished].
Proof.
  apply Prefix_empty_prefix.
  - repeat constructor.
  - intro k. reflexivity.
  - reflexivity.
Defined.

(** ** What a stream pushes is what Get returns *)

Lemma lookup_In_sorted k c t : sorted t -> In (k, c) t -> lookup k t = Some c.
Proof.
  unfold sorted. induction t as [|[k' c'] t IH]; simpl; intros S H; [contradiction|].
  inversion S as [|? ? F S']; subst.
  destruct H as [H|H].
  - inversion H; subst. now rewrite bytes_cmp_refl.
  - assert (L : bytes_cmp k' k = Lt).
    { rewrite Forall_map in F. rewrite Forall_forall in F. apply (F (k, c) H). }
    rewrite (bytes_cmp_antisym k' k), L. simpl. auto.
Qed.

Lemma In_pushed_terminate kv out :
  In (EvItem kv) (pushed (terminate out)) -> In (EvItem kv) (pushed (fst out)).
Proof.
  destruct out as [it r]. rewrite pushed_terminate. intros H.
  apply in_app_or in H. destruct H as [H|[H|[]]]; [exact H|].
  destruct r; discriminate.
Qed.

Lemma In_pushed_PushItem kv new it :
  In (EvItem kv) (pushed (PushItem new it)) -> In (EvItem kv) (pushed it) \/ kv = new.
Proof.
  unfold PushItem, push. simpl. intros H.
  apply in_app_or in H. destruct H as [H|[H|[]]]; [now left|].
  right. now inversion H.
Qed.

Lemma Scan_loop_sound s txn e limit bit :
  forall count sit kv,
    In (EvItem kv) (pushed (fst (Scan_loop s txn e limit bit count sit))) ->
    In (EvItem kv) (pushed sit) \/
    exists c, In (kv_Key kv, c) bit /\ bytes_ltb (kv_Key kv) e = true /\
              value_fault (txn_engine txn) (kv_Key kv) = None /\
              Decompress (compressor s) c = Ok (kv_Value kv).
Proof.
  induction bit as [|[k v] bit IH]; intros count sit kv; simpl; [now left|].
  rewrite Compare_lt.
  destruct (bytes_ltb k e) eqn:El; [|now left].
  destruct (ctx_Err (it_ctx sit) (items_pushed sit)); [now left|].
  unfold ValueCopy. simpl.
  destruct (value_fault (txn_engine txn) k) eqn:Ev; [now left|].
  destruct (Decompress (compressor s) v) as [value|err] eqn:Ed; [|now left].
  assert (Hnew : forall it,
            In (EvItem kv) (pushed (PushItem {| kv_Key := KeyCopy
                 {| item_key := k; item_value := v |}; kv_Value := value |} it)) ->
            In (EvItem kv) (pushed it) \/
            exists c, In (kv_Key kv, c) ((k, v) :: bit) /\
                      bytes_ltb (kv_Key kv) e = true /\
                      value_fault (txn_engine txn) (kv_Key kv) = None /\
                      Decompress (compressor s) c = Ok (kv_Value kv)).
  { intros it H. apply In_pushed_PushItem in H. destruct H as [H|H]; [now left|].
    right. subst kv. exists v. simpl. auto. }
  destruct ((int_incr count =? limit) && (0 <? limit)).
  - intros H. apply Hnew in H. exact H.
  - intros H. apply IH in H. destruct H as [H|(c & Hin & H)].
    + apply Hnew in H. exact H.
    + right. exists c. split; [now right | exact H].
Qed.

Lemma Prefix_loop_sound s txn p it :
  forall count kr kv,
    In (EvItem kv) (pushed (fst (Prefix_loop s txn p it count kr))) ->
    In (EvItem kv) (pushed kr) \/
    exists c, In (kv_Key kv, c) it /\ HasPrefix (kv_Key kv) p = true /\
              value_fault (txn_engine txn) (kv_Key kv) = None /\
              Decompress (compressor s) c = Ok (kv_Value kv).
Proof.
  induction it as [|[k v] it IH]; intros count kr kv; simpl; [now left|].
  destruct (HasPrefix k p) eqn:El; [|now left].
  destruct (ctx_Err (it_ctx kr) (items_pushed kr)); [now left|].
  unfold ValueCopy. simpl.
  destruct (value_fault (txn_engine txn) k) eqn:Ev; [now left|].
  destruct (Decompress (compressor s) v) as [value|err] eqn:Ed; [|now left].
  intros H. apply IH in H. destruct H as [H|(c & Hin & H)].
  - apply In_pushed_PushItem in H. destruct H as [H|H]; [now left|].
    right. subst kv. exists v. simpl. auto.
  - right. exists c. split; [now right | exact H].
Qed.

(** X14. Under any caller and any engine behaviour, on a table in key order:
    every pair [Scan] pushes has its key in [start <= k < exclusiveEnd],
    every pair [Prefix] pushes has a key with the prefix, and each such
    pair is the one [Get] returns for its key when the engine's point
    read of that key does not fail. *)
Theorem streamed_pairs_are_stored s ctx kv :
  sorted (contents (db s)) ->
  (forall start exclusiveEnd limit,
     In (EvItem kv) (pushed (Scan s ctx start exclusiveEnd limit)) ->
     in_range start exclusiveEnd (kv_Key kv) = true /\
     (get_fault (engine (db s)) (kv_Key kv) = None ->
      Get s (kv_Key kv) = Ok (kv_Value kv))) /\
  (forall prefix,
     In (EvItem kv) (pushed (Prefix s ctx prefix)) ->
     HasPrefix (kv_Key kv) prefix = true /\
     (get_fault (engine (db s)) (kv_Key kv) = None ->
      Get s (kv_Key kv) = Ok (kv_Value kv))).
Proof.
  intros S. split.
  - intros start e limit H. unfold Scan, View, NewIterator in H.
    apply In_pushed_terminate, Scan_loop_sound in H. simpl in H.
    destruct H as [[]|(c & Hin & Hlt & Hv & Hd)].
    rewrite Seek_filter in Hin by assumption.
    apply filter_In in Hin. simpl in Hin. destruct Hin as [Hin Hle].
    split.
    + unfold in_range. now rewrite Hle, Hlt.
    + intros Hg. rewrite Get_unfold, Hg, (lookup_In_sorted _ _ _ S Hin), Hv.
      exact Hd.
  - intros p H. unfold Prefix, View, NewIterator in H.
    apply In_pushed_terminate, Prefix_loop_sound in H. simpl in H.
    destruct H as [[]|(c & Hin & Hp & Hv & Hd)].
    rewrite Seek_filter in Hin by assumption.
    apply filter_In in Hin. simpl in Hin. destruct Hin as [Hin Hle].
    split; [exact Hp|].
    intros Hg. rewrite Get_unfold, Hg, (lookup_In_sorted _ _ _ S Hin), Hv.
    exact Hd.
Qed.

Lemma streamed_pairs_are_stored_witness :
  in_range key_a key_d key_c = true /\ Get abcd_store key_c = Ok val_3.
Proof.
  destruct (streamed_pairs_are_stored abcd_store
              {| cancel_at := Some 3%nat; cancel_cause := DeadlineExceeded |}
              {| kv_Key := key_c; kv_Value := val_3 |}
              ltac:(repeat constructor)) as [H _].
  destruct (H key_a key_d 0) as [H1 H2].
  - simpl. right. right. left. reflexivity.
  - split; [exact H1 | apply H2; reflexivity].
Defined.

Lemma BatchGet_loop_sound s txn keys :
  forall kr kv,
    In (EvItem kv) (pushed (fst (BatchGet_loop s txn keys kr))) ->
    In (EvItem kv) (pushed kr) \/
    (In (kv_Key kv) keys /\ read_value s txn (kv_Key kv) = Ok (kv_Value kv)).
Proof.
  induction keys as [|k keys IH]; intros kr kv; [now left|].
  rewrite BatchGet_loop_cons.
  destruct (read_value s txn k) as [v|err] eqn:E; [|now left].
  intros H. apply IH in H. destruct H as [H|[Hin H]].
  - apply In_pushed_PushItem in H. destruct H as [H|H]; [now left|].
    right. subst kv. simpl. split; [now left | exact E].
  - right. split; [now right | exact H].
Qed.

Lemma read_value_Get s k v : read_value s (view_of s) k = Ok v -> Get s k = Ok v.
Proof.
  rewrite Get_unfold. unfold read_value, txn_Get, ValueCopy, view_of. simpl.
  destruct (get_fault (engine (db s)) k); [discriminate|].
  destruct (lookup k (contents (db s))); [|discriminate].
  simpl. destruct (value_fault (engine (db s)) k); [discriminate | auto].
Qed.

(** X15. Under any caller and any engine behaviour, every pair [BatchGet]
    pushes is for a requested key and carries the value [Get] returns
    for that key. *)
Theorem BatchGet_pairs_are_stored s ctx keys kv :
  In (EvItem kv) (pushed (BatchGet s ctx keys)) ->
  In (kv_Key kv) keys /\ Get s (kv_Key kv) = Ok (kv_Value kv).
Proof.
  intros H. unfold BatchGet, View in H.
  apply In_pushed_terminate, BatchGet_loop_sound in H. simpl in H.
  destruct H as [[]|[Hin H]].
  split; [exact Hin | now apply read_value_Get].
Qed.

Lemma BatchGet_pairs_are_stored_witness :
  In key_c [key_b; key_c; key_ab] /\ Get abcd_store key_c = Ok val_3.
Proof.
  apply (BatchGet_pairs_are_stored abcd_store cancelled [key_b; key_c; key_ab]
           {| kv_Key := key_c; kv_Value := val_3 |}).
  simpl. right. left. reflexivity.
Defined.

(** ** A token triggered in the middle of a stream *)

Lemma ctx_Err_triggered ctx n m :
  cancel_at ctx = Some n -> (n <= m)%nat ->
  ctx_Err ctx m = Some (ErrContext (cancel_cause ctx)).
Proof.
  unfold ctx_Err. intros -> H. destruct (Nat.leb_spec n m); [reflexivity | lia].
Qed.

Lemma ctx_Err_waiting ctx n m :
  cancel_at ctx = Some n -> (m < n)%nat -> ctx_Err ctx m = None.
Proof.
  unfold ctx_Err. intros -> H. destruct (Nat.leb_spec n m); [lia | reflexivity].
Qed.

(** The loop of [Scan] under a token triggered after [n] items: it
    pushes what it would push without the token, cut at [n] items in
    all, and ends with the token's error when that cut something off. *)
Lemma Scan_loop_cut s txn e limit n bit items :
  (forall k, value_fault (txn_engine txn) k = None) ->
  holds (compressor s) bit items ->
  forall count sit,
    cancel_at (it_ctx sit) = Some n ->
    limit <= 0 \/ (0 <= count < limit /\ is_int limit) ->
    let rest := budget limit count
                  (take_while (fun kv => bytes_ltb (kv_Key kv) e) items) in
    let room := (n - items_pushed sit)%nat in
    ((room < length rest)%nat ->
     snd (Scan_loop s txn e limit bit count sit) =
       Some (ErrContext (cancel_cause (it_ctx sit))) /\
     pushed (fst (Scan_loop s txn e limit bit count sit)) =
       pushed sit ++ map EvItem (firstn room rest)) /\
    ((length rest <= room)%nat ->
     snd (Scan_loop s txn e limit bit count sit) = None /\
     pushed (fst (Scan_loop s txn e limit bit count sit)) =
       pushed sit ++ map EvItem rest).
Proof.
  intros Hvf. induction 1 as [|[k c] kv bit items [Hk Hv] _ IH];
    intros count sit Hn Hlim rest room.
  - subst rest. cbn [take_while]. rewrite budget_nil. simpl. split; [lia|].
    intros _. now rewrite app_nil_r.
  - simpl in Hk, Hv. subst k. subst rest. simpl. rewrite Compare_lt.
    destruct (bytes_ltb (kv_Key kv) e) eqn:Elt.
    2:{ rewrite budget_nil. simpl. split; [lia|].
        intros _. now rewrite app_nil_r. }
    set (tw := take_while (fun kv => bytes_ltb (kv_Key kv) e) items) in *.
    assert (Hb : exists rest',
               budget limit count (kv :: tw) = kv :: rest' /\
               (((int_incr count =? limit) && (0 <? limit)) = true -> rest' = []) /\
               (((int_incr count =? limit) && (0 <? limit)) = false ->
                rest' = budget limit (int_incr count) tw /\
                (limit <= 0 \/ (0 <= int_incr count < limit /\ is_int limit)))).
    { unfold budget. destruct Hlim as [Hle|[Hc Hint]].
      - assert ((0 <? limit) = false) as -> by (apply Z.ltb_ge; lia).
        exists tw. rewrite andb_false_r. repeat split; auto; discriminate.
      - rewrite (int_incr_small count limit) by assumption.
        assert ((0 <? limit) = true) as -> by (apply Z.ltb_lt; lia).
        rewrite andb_true_r.
        destruct (Z.eqb_spec (count + 1) limit) as [Heq|Hneq].
        + exists []. replace (Z.to_nat (limit - count)) with 1%nat by lia.
          simpl. repeat split; auto; discriminate.
        + exists (firstn (Z.to_nat (limit - (count + 1))) tw).
          replace (Z.to_nat (limit - count))
            with (S (Z.to_nat (limit - (count + 1)))) by lia.
          simpl. repeat split; auto; try discriminate.
          right. split; [lia | assumption]. }
    destruct Hb as (rest' & -> & Hstop & Hgo).
    destruct (Nat.le_gt_cases n (items_pushed sit)) as [Hfull|Hroom].
    + rewrite (ctx_Err_triggered _ _ _ Hn Hfull). simpl.
      replace room with 0%nat by (unfold room; lia). simpl.
      split; [intros _; now rewrite app_nil_r | lia].
    + rewrite (ctx_Err_waiting _ _ _ Hn Hroom).
      unfold ValueCopy. simpl. rewrite Hvf, Hv. unfold KeyCopy. simpl.
      rewrite KV_eta.
      set (sit1 := PushItem kv _).
      assert (Hi : items_pushed sit1 = S (items_pushed sit))
        by (unfold sit1; rewrite items_pushed_PushItem; reflexivity).
      assert (Hr : room = S (n - items_pushed sit1)) by (unfold room; lia).
      destruct ((int_incr count =? limit) && (0 <? limit)) eqn:Estop.
      * rewrite (Hstop eq_refl). simpl. split; [lia|]. intros _. now split.
      * destruct (Hgo eq_refl) as [-> Hlim'].
        destruct (IH (int_incr count) sit1 Hn Hlim') as [I1 I2].
        rewrite Hr. simpl. split; intros Hlen.
        -- destruct I1 as [J1 J2]; [lia|]. split; [exact J1|].
           rewrite J2. simpl. now rewrite <- app_assoc.
        -- destruct I2 as [J1 J2]; [lia|]. split; [exact J1|].
           rewrite J2. simpl. now rewrite <- app_assoc.
Qed.

Lemma Prefix_loop_cut s txn p n it items :
  (forall k, value_fault (txn_engine txn) k = None) ->
  holds (compressor s) it items ->
  forall count kr,
    cancel_at (it_ctx kr) = Some n ->
    let rest := take_while (fun kv => HasPrefix (kv_Key kv) p) items in
    let room := (n - items_pushed kr)%nat in
    ((room < length rest)%nat ->
     snd (Prefix_loop s txn p it count kr) =
       Some (ErrContext (cancel_cause (it_ctx kr))) /\
     pushed (fst (Prefix_loop s txn p it count kr)) =
       pushed kr ++ map EvItem (firstn room rest)) /\
    ((length rest <= room)%nat ->
     snd (Prefix_loop s txn p it count kr) = None /\
     pushed (fst (Prefix_loop s txn p it count kr)) =
       pushed kr ++ map EvItem rest).
Proof.
  intros Hvf. induction 1 as [|[k c] kv it items [Hk Hv] _ IH];
    intros count kr Hn rest room.
  - simpl. split; [lia|]. intros _. now rewrite app_nil_r.
  - simpl in Hk, Hv. subst k. subst rest. simpl.
    destruct (HasPrefix (kv_Key kv) p) eqn:Ep.
    2:{ simpl. split; [lia|]. intros _. now rewrite app_nil_r. }
    destruct (Nat.le_gt_cases n (items_pushed kr)) as [Hfull|Hroom].
    + rewrite (ctx_Err_triggered _ _ _ Hn Hfull). simpl.
      replace room with 0%nat by (unfold room; lia). simpl.
      split; [intros _; now rewrite app_nil_r | lia].
    + rewrite (ctx_Err_waiting _ _ _ Hn Hroom).
      unfold ValueCopy. simpl. rewrite Hvf, Hv. unfold KeyCopy. simpl.
      rewrite KV_eta.
      set (kr1 := PushItem kv _).
      assert (Hi : items_pushed kr1 = S (items_pushed kr))
        by (unfold kr1; rewrite items_pushed_PushItem; reflexivity).
      assert (Hr : room = S (n - items_pushed kr1)) by (unfold room; lia).
      destruct (IH (int_incr count) kr1 Hn) as [I1 I2].
      rewrite Hr. simpl. split; intros Hlen.
      * destruct I1 as [J1 J2]; [lia|]. split; [exact J1|].
        rewrite J2. simpl. now rewrite <- app_assoc.
      * destruct I2 as [J1 J2]; [lia|]. split; [exact J1|].
        rewrite J2. simpl. now rewrite <- app_assoc.
Qed.

(** X10. With the stored pairs [kvs] in a table in key order and an engine
    that copies the values, a token triggered once [n] items have been
    pushed cuts [Scan] at [n] items: if the range (up to the limit) holds
    more than [n] pairs, the first [n] are pushed and then the token's
    error; if it holds no more than [n], all are pushed and then
    finished, the token being triggered or not. *)
Theorem Scan_cancelled_after s ctx start exclusiveEnd limit kvs n :
  sorted (contents (db s)) ->
  holds (compressor s) (contents (db s)) kvs ->
  values_ok (engine (db s)) ->
  cancel_at ctx = Some n ->
  is_int limit ->
  let full :=
    up_to limit (filter (fun kv => in_range start exclusiveEnd (kv_Key kv)) kvs) in
  ((n < length full)%nat ->
   pushed (Scan s ctx start exclusiveEnd limit) =
     map EvItem (firstn n full) ++ [EvError (ErrContext (cancel_cause ctx))]) /\
  ((length full <= n)%nat ->
   pushed (Scan s ctx start exclusiveEnd limit) = map EvItem full ++ [EvFinished]).
Proof.
  intros S H R Hctx Hint full.
  pose proof (holds_ascending _ _ _ H S) as A.
  unfold Scan, View, NewIterator. simpl.
  assert (Hh : holds (compressor s) (Seek start (contents (db s)))
                 (filter (fun kv => bytes_leb start (kv_Key kv)) kvs)).
  { rewrite Seek_filter by assumption.
    now apply (holds_filter _ _ _ (bytes_leb start)). }
  assert (Hlim : limit <= 0 \/ (0 <= 0 < limit /\ is_int limit)).
  { destruct (Z_le_gt_dec limit 0); [now left | right; split; [lia | exact Hint]]. }
  pose proof (Scan_loop_cut s
                {| txn_engine := engine (db s); snapshot := contents (db s) |}
                exclusiveEnd limit n _ _ R Hh
                0 (NewStoreIterator ctx) Hctx Hlim) as I.
  cbv zeta in I.
  assert (Ef : budget limit 0
                 (take_while (fun kv => bytes_ltb (kv_Key kv) exclusiveEnd)
                    (filter (fun kv => bytes_leb start (kv_Key kv)) kvs)) = full).
  { unfold budget, full, up_to. rewrite Z.sub_0_r.
    rewrite (take_while_filter kv_Key (fun k => bytes_ltb k exclusiveEnd)).
    - now rewrite filter_filter.
    - now apply ascending_filter.
    - intros k k' _. apply bytes_ltb_closed. }
  rewrite Ef in I.
  change (items_pushed (NewStoreIterator ctx)) with 0%nat in I.
  rewrite Nat.sub_0_r in I.
  destruct (Scan_loop _ _ _ _ _ _ _) as [it r]. simpl in I.
  destruct I as [I1 I2]. split; intros Hlen.
  - destruct (I1 Hlen) as [-> P]. now rewrite pushed_terminate, P.
  - destruct (I2 Hlen) as [-> P]. now rewrite pushed_terminate, P.
Qed.

Lemma Scan_cancelled_after_witness :
  pushed (Scan abcd_store {| cancel_at := Some 1%nat; cancel_cause := Canceled |}
            key_a key_d 0) =
    [EvItem {| kv_Key := key_a; kv_Value := val_1 |}; EvError (ErrContext Canceled)] /\
  pushed (Scan abcd_store {| cancel_at := Some 1%nat; cancel_cause := Canceled |}
            key_a key_d 1) =
    [EvItem {| kv_Key := key_a; kv_Value := val_1 |}; EvFinished].
Proof.
  assert (S : sorted (contents (db abcd_store))) by (repeat constructor).
  assert (H : holds (compressor abcd_store) (contents (db abcd_store)) abcd_pairs)
    by (repeat constructor).
  assert (R : values_ok (engine (db abcd_store))) by (intro k; reflexivity).
  split.
  - apply (proj1 (Scan_cancelled_after abcd_store
                    {| cancel_at := Some 1%nat; cancel_cause := Canceled |}
                    key_a key_d 0 abcd_pairs 1 S H R eq_refl
                    ltac:(unfold is_int; lia))).
    simpl. lia.
  - apply (proj2 (Scan_cancelled_after abcd_store
                    {| cancel_at := Some 1%nat; cancel_cause := Canceled |}
                    key_a key_d 1 abcd_pairs 1 S H R eq_refl
                    ltac:(unfold is_int; lia))).
    simpl. lia.
Defined.

(** X13. The same for [Prefix]: a token triggered once [n] items have been
    pushed cuts the stream of the pairs with the prefix at [n] items and
    ends it with the token's error, unless no more than [n] pairs have
    the prefix. *)
Theorem Prefix_cancelled_after s ctx prefix kvs n :
  sorted (contents (db s)) ->
  holds (compressor s) (contents (db s)) kvs ->
  values_ok (engine (db s)) ->
  cancel_at ctx = Some n ->
  let full := filter (fun kv => HasPrefix (kv_Key kv) prefix) kvs in
  ((n < length full)%nat ->
   pushed (Prefix s ctx prefix) =
     map EvItem (firstn n full) ++ [EvError (ErrContext (cancel_cause ctx))]) /\
  ((length full <= n)%nat ->
   pushed (Prefix s ctx prefix) = map EvItem full ++ [EvFinished]).
Proof.
  intros S H R Hctx full.
  pose proof (holds_ascending _ _ _ H S) as A.
  unfold Prefix, View, NewIterator. simpl.
  assert (Hh : holds (compressor s) (Seek prefix (contents (db s)))
                 (filter (fun kv => bytes_leb prefix (kv_Key kv)) kvs)).
  { rewrite Seek_filter by assumption.
    now apply (holds_filter _ _ _ (bytes_leb prefix)). }
  pose proof (Prefix_loop_cut s
                {| txn_engine := engine (db s); snapshot := contents (db s) |}
                prefix n _ _ R Hh 0 (NewStoreIterator ctx) Hctx) as I.
  cbv zeta in I.
  assert (Ef : take_while (fun kv => HasPrefix (kv_Key kv) prefix)
                 (filter (fun kv => bytes_leb prefix (kv_Key kv)) kvs) = full).
  { unfold full.
    rewrite (take_while_filter kv_Key (fun k => HasPrefix k prefix)).
    - rewrite filter_filter. apply filter_ext. intros kv.
      destruct (HasPrefix (kv_Key kv) prefix) eqn:E.
      + now rewrite (HasPrefix_leb _ _ E).
      + apply andb_false_r.
    - now apply ascending_filter.
    - intros k k' Hin. apply HasPrefix_closed.
      apply in_map_iff in Hin. destruct Hin as (kv & <- & Hin).
      now apply filter_In in Hin. }
  rewrite Ef in I.
  change (items_pushed (NewStoreIterator ctx)) with 0%nat in I.
  rewrite Nat.sub_0_r in I.
  destruct (Prefix_loop _ _ _ _ _ _) as [it r]. simpl in I.
  destruct I as [I1 I2]. split; intros Hlen.
  - destruct (I1 Hlen) as [-> P]. now rewrite pushed_terminate, P.
  - destruct (I2 Hlen) as [-> P]. now rewrite pushed_terminate, P.
Qed.

Lemma Prefix_cancelled_after_witness :
  pushed (Prefix prefix_store
            {| cancel_at := Some 1%nat; cancel_cause := DeadlineExceeded |} key_a) =
    [EvItem {| kv_Key := key_ab; kv_Value := val_1 |};
     EvError (ErrContext DeadlineExceeded)] /\
  pushed (Prefix prefix_store
            {| cancel_at := Some 1%nat; cancel_cause := DeadlineExceeded |} key_b) =
    [EvItem {| kv_Key := key_b; kv_Value := val_3 |}; EvFinished].
Proof.
  assert (S : sorted (contents (db prefix_store))) by (repeat constructor).
  assert (H : holds (compressor prefix_store) (contents (db prefix_store)) prefix_pairs)
    by (repeat constructor).
  assert (R : values_ok (engine (db prefix_store))) by (intro k; reflexivity).
  split.
  - apply (proj1 (Prefix_cancelled_after prefix_store
                    {| cancel_at := Some 1%nat; cancel_cause := DeadlineExceeded |}
                    key_a prefix_pairs 1 S H R eq_refl)).
    simpl. lia.
  - apply (proj2 (Prefix_cancelled_after prefix_store
                    {| cancel_at := Some 1%nat; cancel_cause := DeadlineExceeded |}
                    key_b prefix_pairs 1 S H R eq_refl)).
    simpl. lia.
Defined.

(** ** A stored value that cannot be read *)

Lemma ascending_app_lt (l1 : list bytes) k l2 :
  ascending (l1 ++ k :: l2) -> Forall (fun k' => bytes_cmp k' k = Lt) l1.
Proof.
  induction l1 as [|x l1 IH]; simpl; intros A; [constructor|].
  inversion A as [|? ? F A']; subst. constructor; [|now apply IH].
  rewrite Forall_forall in F. apply F. apply in_or_app. right. now left.
Qed.

(** The loop of [Scan] over a stretch of the cursor that is below
    [exclusiveEnd], reads without failing and does not exhaust the
    limit: it pushes the stretch and goes on with what follows. *)
Lemma Scan_loop_app s txn e limit bit1 items1 :
  Forall2 (fun st kv => fst st = kv_Key kv /\
                        read_stored s txn (fst st) (snd st) = Ok (kv_Value kv))
          bit1 items1 ->
  Forall (fun kv => bytes_ltb (kv_Key kv) e = true) items1 ->
  forall rest count sit,
    cancel_at (it_ctx sit) = None ->
    limit <= 0 \/ (0 <= count /\ count + Z.of_nat (length items1) < limit /\ is_int limit) ->
    exists count' sit',
      Scan_loop s txn e limit (bit1 ++ rest) count sit =
        Scan_loop s txn e limit rest count' sit' /\
      pushed sit' = pushed sit ++ map EvItem items1 /\
      it_ctx sit' = it_ctx sit.
Proof.
  induction 1 as [|[k c] kv bit1 items1 [Hk Hr] _ IH];
    intros Hlt rest count sit Hctx Hlim.
  - exists count, sit. simpl. now rewrite app_nil_r.
  - inversion Hlt as [|? ? Hlt1 Hlt']; subst. simpl in Hk, Hr. subst k.
    simpl. rewrite Compare_lt, Hlt1.
    rewrite ctx_Err_never by assumption.
    unfold read_stored in Hr.
    destruct (ValueCopy txn _) as [value|err]; [|discriminate].
    rewrite Hr. unfold KeyCopy. simpl. rewrite KV_eta.
    set (sit1 := PushItem kv _).
    assert (Hgo : ((int_incr count =? limit) && (0 <? limit)) = false /\
                  (limit <= 0 \/
                   (0 <= int_incr count /\
                    int_incr count + Z.of_nat (length items1) < limit /\
                    is_int limit))).
    { destruct Hlim as [Hle|(Hc & Hn & Hint)].
      - split; [|now left].
        assert ((0 <? limit) = false) as -> by (apply Z.ltb_ge; lia).
        apply andb_false_r.
      - simpl length in Hn.
        rewrite (int_incr_small count limit) by (auto; lia).
        split; [|right; split; [lia | split; [lia | exact Hint]]].
        assert ((count + 1 =? limit) = false) as -> by (apply Z.eqb_neq; lia).
        reflexivity. }
    destruct Hgo as [-> Hlim'].
    destruct (IH Hlt' rest (int_incr count) sit1 Hctx Hlim')
      as (count' & sit' & E & P & C).
    exists count', sit'. split; [exact E|]. split; [|exact C].
    rewrite P. simpl. now rewrite <- app_assoc.
Qed.

(** X11. A stored value in the range that cannot be copied or decompressed
    ends [Scan] with that error: the pairs in the range before it are
    pushed, then the error, and nothing of what follows in the table. *)
Theorem Scan_stops_at_unreadable_value
    s ctx start exclusiveEnd limit t1 k c t2 kvs1 err :
  contents (db s) = t1 ++ (k, c) :: t2 ->
  sorted (contents (db s)) ->
  Forall2 (fun st kv => fst st = kv_Key kv /\
                        read_stored s (view_of s) (fst st) (snd st) = Ok (kv_Value kv))
          t1 kvs1 ->
  read_stored s (view_of s) k c = Err err ->
  in_range start exclusiveEnd k = true ->
  cancel_at ctx = None ->
  is_int limit ->
  limit <= 0 \/
  Z.of_nat (length (filter (fun kv => in_range start exclusiveEnd (kv_Key kv)) kvs1))
    < limit ->
  pushed (Scan s ctx start exclusiveEnd limit) =
    map EvItem (filter (fun kv => in_range start exclusiveEnd (kv_Key kv)) kvs1)
    ++ [EvError err].
Proof.
  intros Ht S H1 Hbad Hin Hctx Hint Hlim.
  unfold in_range in Hin. apply andb_true_iff in Hin. destruct Hin as [Hle Hlt].
  assert (Hbelow : Forall (fun st => bytes_cmp (fst st) k = Lt) t1).
  { unfold sorted in S. rewrite Ht, map_app in S. simpl in S.
    apply ascending_app_lt in S. now rewrite Forall_map in S. }
  assert (Hf : filter (fun kv => in_range start exclusiveEnd (kv_Key kv)) kvs1 =
               filter (fun kv => bytes_leb start (kv_Key kv)) kvs1).
  { apply filter_ext_in. intros kv Hkv. unfold in_range.
    assert (L : bytes_ltb (kv_Key kv) exclusiveEnd = true); [|now rewrite L, andb_true_r].
    assert (Lk : bytes_cmp (kv_Key kv) k = Lt).
    { clear - H1 Hbelow Hkv. induction H1 as [|st kv' t1 kvs1 [Hk _] _ IH];
        [contradiction|].
      inversion Hbelow; subst. destruct Hkv as [->|Hkv]; [now rewrite <- Hk | auto]. }
    unfold bytes_ltb in *. destruct (bytes_cmp k exclusiveEnd) eqn:E; try discriminate.
    now rewrite (bytes_cmp_lt_trans _ _ _ Lk E). }
  rewrite Hf in *.
  unfold Scan, View, NewIterator. fold (view_of s).
  change (snapshot (view_of s)) with (contents (db s)).
  rewrite Seek_filter by assumption. rewrite Ht, filter_app. simpl. rewrite Hle.
  assert (H1f : Forall2 (fun st kv => fst st = kv_Key kv /\
                   read_stored s (view_of s) (fst st) (snd st) = Ok (kv_Value kv))
                  (filter (fun st => bytes_leb start (fst st)) t1)
                  (filter (fun kv => bytes_leb start (kv_Key kv)) kvs1)).
  { clear - H1. induction H1 as [|st kv t1 kvs1 [Hk Hr] _ IH]; simpl; [constructor|].
    rewrite Hk. destruct (bytes_leb start (kv_Key kv)); auto. }
  assert (Hall : Forall (fun kv => bytes_ltb (kv_Key kv) exclusiveEnd = true)
                   (filter (fun kv => bytes_leb start (kv_Key kv)) kvs1)).
  { rewrite <- Hf. apply Forall_forall. intros kv Hkv.
    apply filter_In in Hkv. destruct Hkv as [_ Hkv]. unfold in_range in Hkv.
    now apply andb_true_iff in Hkv. }
  assert (Hlim' : limit <= 0 \/
            (0 <= 0 /\
             0 + Z.of_nat (length (filter (fun kv => bytes_leb start (kv_Key kv)) kvs1))
               < limit /\ is_int limit)).
  { destruct Hlim as [Hl|Hl];
      [now left | right; split; [lia | split; [lia | exact Hint]]]. }
  destruct (Scan_loop_app s (view_of s) exclusiveEnd limit _ _ H1f Hall
              ((k, c) :: filter (fun st => bytes_leb start (fst st)) t2)
              0 (NewStoreIterator ctx) Hctx Hlim')
    as (count' & sit' & E & P & C).
  rewrite E. simpl. rewrite Compare_lt, Hlt.
  rewrite ctx_Err_never by (rewrite C; exact Hctx).
  unfold read_stored in Hbad.
  destruct (ValueCopy (view_of s) _) as [value|verr].
  - rewrite Hbad. simpl. unfold PushError, push. simpl. now rewrite P.
  - inversion Hbad; subst. simpl. unfold PushError, push. simpl. now rewrite P.
Qed.

Lemma Scan_stops_at_unreadable_value_witness :
  pushed (Scan (store_of [(key_a, stored val_1); (key_b, val_2); (key_c, stored val_3)]
                  None)
            Background key_a key_d 0) =
    [EvItem {| kv_Key := key_a; kv_Value := val_1 |}; EvError (ErrCodec 1)].
Proof.
  apply (Scan_stops_at_unreadable_value
           (store_of [(key_a, stored val_1); (key_b, val_2); (key_c, stored val_3)] None)
           Background key_a key_d 0
           [(key_a, stored val_1)] key_b val_2 [(key_c, stored val_3)]
           [{| kv_Key := key_a; kv_Value := val_1 |}] (ErrCodec 1)).
  - reflexivity.
  - repeat constructor.
  - repeat constructor.
  - reflexivity.
  - reflexivity.
  - reflexivity.
  - unfold is_int. lia.
  - left. lia.
Defined.

(** ** The block writer *)

Lemma staged_as_same s s' ws :
  engine (db s') = engine (db s) -> compressor s' = compressor s ->
  staged_as s' ws = staged_as s ws.
Proof.
  intros He Hc. unfold staged_as, accepted. rewrite He, Hc. reflexivity.
Qed.

Lemma staged_as_app s a b : staged_as s (a ++ b) = staged_as s a ++ staged_as s b.
Proof. unfold staged_as. now rewrite filter_app, map_app. Qed.

Lemma wrote_refl s : wrote s s [].
Proof. now repeat split. Qed.

Lemma wrote_trans s s' s'' a b :
  wrote s s' a -> wrote s' s'' b -> wrote s s'' (a ++ b).
Proof.
  intros (He & Hc & Hv) (He' & Hc' & Hv').
  repeat split; try congruence.
  rewrite Hv', Hv, staged_as_app, commit_app.
  now rewrite (staged_as_same s s' b He Hc).
Qed.

(** One [Put]: the write is issued when [Put] returns nil, and is in the
    store unless the engine refused the entry. *)
Lemma wrote_Put s k v :
  wrote s (fst (Put s k v))
        (match snd (Put s k v) with None => [(k, v)] | Some _ => [] end).
Proof.
  destruct (Put_keeps_engine s k v) as [Hc He].
  split; [exact He|]. split; [exact Hc|].
  rewrite Put_cases. unfold eventual, staged_as, accepted.
  destruct (entry_fault (engine (db s)) _) eqn:Ef;
    [simpl; rewrite Ef; reflexivity|].
  destruct (txn_full (engine (db s)) (pending (current_batch s)) _).
  - destruct (flush_fault (engine (db s)) _); [reflexivity|].
    destruct (txn_full (engine (db s)) [] _); [reflexivity|].
    simpl. rewrite Ef. reflexivity.
  - simpl. rewrite Ef. simpl.
    change (pending (current_batch (with_batch s (db s) (Some ?wb))))
      with (pending wb).
    simpl. now rewrite commit_app.
Qed.

Lemma performed_nil d : performed d d [] None.
Proof. exists [], []. repeat split; auto. Qed.

Lemma performed_stop d d' ws ws' e :
  performed d d' ws (Some e) -> performed d d' (ws ++ ws') (Some e).
Proof.
  intros (done & rest & -> & W & C & _).
  exists done, (rest ++ ws'). rewrite app_assoc. repeat split; try apply W; auto.
  discriminate.
Qed.

Lemma performed_then d d1 d2 ws1 ws2 r :
  performed d d1 ws1 None -> performed d1 d2 ws2 r ->
  performed d d2 (ws1 ++ ws2) r.
Proof.
  intros (done1 & rest1 & -> & W1 & C1 & R1) (done2 & rest2 & -> & W2 & C2 & R2).
  rewrite (R1 eq_refl), app_nil_r in *.
  exists (done1 ++ done2), rest2. rewrite app_assoc.
  split; [reflexivity|]. split; [now apply wrote_trans with (store d1)|].
  split; [congruence | exact R2].
Qed.

Lemma performed_put_or msg d k v :
  performed d (fst (put_or msg d k v)) [(k, v)] (snd (put_or msg d k v)).
Proof.
  unfold put_or. pose proof (wrote_Put (store d) k v) as W.
  destruct (Put (store d) k v) as [s [err|]]; simpl in *.
  - exists [], [(k, v)]. repeat split; try apply W. discriminate.
  - exists [(k, v)], []. repeat split; try apply W.
Qed.

Lemma performed_put_plain d k v :
  performed d (fst (put_plain d k v)) [(k, v)] (snd (put_plain d k v)).
Proof.
  unfold put_plain. pose proof (wrote_Put (store d) k v) as W.
  destruct (Put (store d) k v) as [s [err|]]; simpl in *.
  - exists [], [(k, v)]. repeat split; try apply W. discriminate.
  - exists [(k, v)], []. repeat split; try apply W.
Qed.

Lemma performed_chain d d' ws r : performed d d' ws r -> writerChainID d' = writerChainID d.
Proof. now intros (done & rest & _ & _ & C & _). Qed.

Lemma trx_writes_chain X d d' blk :
  writerChainID d' = writerChainID d ->
  forall trxs, flat_map (trx_writes X d' blk) trxs = flat_map (trx_writes X d blk) trxs.
Proof.
  intros C trxs. induction trxs as [|t trxs IH]; simpl; [reflexivity|].
  rewrite IH. unfold trx_writes. now rewrite C.
Qed.

Lemma putTransactions_loop_performed X blk trxs :
  forall d,
    performed d (fst (putTransactions_loop X d blk trxs))
              (flat_map (trx_writes X d blk) trxs)
              (snd (putTransactions_loop X d blk trxs)).
Proof.
  induction trxs as [|t trxs IH]; intros d; simpl; [apply performed_nil|].
  unfold trx_writes at 1.
  destruct (PackedTransaction t); [|apply IH].
  destruct (ExtractEOSSignedTransactionFromReceipt X t) as [signed|text].
  - match goal with
    | |- context [put_or ?m d ?k ?v] =>
        pose proof (performed_put_or m d k v) as P;
        destruct (put_or m d k v) as [d1 [err|]]
    end; simpl in P |- *.
    + now apply (performed_stop d d1 [_]).
    + apply (performed_then d d1 _ [_]); [exact P|].
      rewrite <- (trx_writes_chain X d d1 blk (performed_chain _ _ _ _ P)).
      apply IH.
  - simpl. exists [], (flat_map (trx_writes X d blk) trxs).
    repeat split; auto. discriminate.
Qed.

Lemma putDtrxOps_loop_performed X blk trxTrace ops :
  forall d,
    performed d (fst (putDtrxOps_loop X d blk trxTrace ops))
              (map (dtrx_write X blk trxTrace) ops)
              (snd (putDtrxOps_loop X d blk trxTrace ops)).
Proof.
  induction ops as [|op ops IH]; intros d; simpl; [apply performed_nil|].
  match goal with
  | |- context [put_or ?m d ?k ?v] =>
      pose proof (performed_put_or m d k v) as P;
      destruct (put_or m d k v) as [d1 [err|]]
  end; simpl in P |- *.
  - now apply (performed_stop d d1 [_]).
  - apply (performed_then d d1 _ [_]); [exact P | apply IH].
Qed.

Lemma putTransactionTraces_loop_performed X blk traces :
  forall d,
    performed d (fst (putTransactionTraces_loop X d blk traces))
              (flat_map (trace_writes X blk) traces)
              (snd (putTransactionTraces_loop X d blk traces)).
Proof.
  induction traces as [|t traces IH]; intros d; simpl; [apply performed_nil|].
  pose proof (putDtrxOps_loop_performed X blk t (DtrxOps t) d) as P1.
  destruct (putDtrxOps_loop X d blk t (DtrxOps t)) as [d1 [err|]]; simpl in P1 |- *.
  - unfold trace_writes. rewrite <- app_assoc. now apply performed_stop.
  - match goal with
    | |- context [put_or ?m d1 ?k ?v] =>
        pose proof (performed_put_or m d1 k v) as P2;
        destruct (put_or m d1 k v) as [d2 [err|]]
    end; simpl in P2 |- *.
    + unfold trace_writes. apply performed_stop.
      now apply performed_then with d1.
    + apply performed_then with d2; [|apply IH].
      unfold trace_writes. now apply performed_then with d1.
Qed.

Lemma putImplicitTransactions_loop_performed X blk ops :
  forall d,
    performed d (fst (putImplicitTransactions_loop X d blk ops))
              (map (implicit_write X blk) ops)
              (snd (putImplicitTransactions_loop X d blk ops)).
Proof.
  induction ops as [|op ops IH]; intros d; simpl; [apply performed_nil|].
  match goal with
  | |- context [put_or ?m d ?k ?v] =>
      pose proof (performed_put_or m d k v) as P;
      destruct (put_or m d k v) as [d1 [err|]]
  end; simpl in P |- *.
  - now apply (performed_stop d d1 [_]).
  - apply (performed_then d d1 _ [_]); [exact P | apply IH].
Qed.

Lemma putBlock_performed X d blk :
  performed d (fst (fst (putBlock X d blk))) [block_write X blk]
            (snd (putBlock X d blk)).
Proof.
  unfold putBlock, getRefs, block_write, block_row. simpl.
  match goal with
  | |- context [put_or ?m d ?k ?v] =>
      pose proof (performed_put_or m d k v) as P;
      destruct (put_or m d k v) as [d1 [err|]]
  end; simpl in P |- *; exact P.
Qed.

Lemma PutBlock_performed X d blk :
  performed d (fst (fst (PutBlock X d blk))) (block_writes X d blk)
            (snd (PutBlock X d blk)).
Proof.
  unfold PutBlock, block_writes, putTransactions, putTransactionTraces,
    putImplicitTransactions.
  pose proof (putTransactions_loop_performed X blk (Transactions blk) d) as P1.
  destruct (putTransactions_loop X d blk (Transactions blk)) as [d1 [err|]];
    simpl in P1 |- *.
  { apply performed_stop.
    destruct P1 as (a & b & E & W & C & _). exists a, b. repeat split; try apply W; auto.
    discriminate. }
  apply performed_then with d1; [exact P1|].
  pose proof (putTransactionTraces_loop_performed X blk (TransactionTraces blk) d1)
    as P2.
  destruct (putTransactionTraces_loop X d1 blk (TransactionTraces blk))
    as [d2 [err|]]; simpl in P2 |- *.
  { apply performed_stop.
    destruct P2 as (a & b & E & W & C & _). exists a, b. repeat split; try apply W; auto.
    discriminate. }
  apply performed_then with d2; [exact P2|].
  pose proof (putImplicitTransactions_loop_performed X blk
                (ImplicitTransactionOps blk) d2) as P3.
  destruct (putImplicitTransactions_loop X d2 blk (ImplicitTransactionOps blk))
    as [d3 [err|]]; simpl in P3 |- *.
  { apply performed_stop.
    destruct P3 as (a & b & E & W & C & _). exists a, b. repeat split; try apply W; auto.
    discriminate. }
  apply performed_then with d3; [exact P3|].
  apply putBlock_performed.
Qed.

Lemma putNewAccounts_loop_performed X blk trxTrace acts :
  forall d,
    performed d (fst (putNewAccounts_loop X d blk trxTrace acts))
              (flat_map (account_writes X blk trxTrace) acts)
              (snd (putNewAccounts_loop X d blk trxTrace acts)).
Proof.
  induction acts as [|act acts IH]; intros d; simpl; [apply performed_nil|].
  unfold account_writes at 1. destruct (is_newaccount act); [|apply IH].
  unfold putNewAccount.
  destruct (TimestampProto X (blk_Time blk)) as [t|text].
  - match goal with
    | |- context [put_or ?m d ?k ?v] =>
        pose proof (performed_put_or m d k v) as P;
        destruct (put_or m d k v) as [d1 [err|]]
    end; simpl in P |- *.
    + apply (performed_stop d d1 [_]).
      destruct P as (a & b & E & W & C & _). exists a, b.
      repeat split; try apply W; auto. discriminate.
    + apply (performed_then d d1 _ [_]); [exact P | apply IH].
  - simpl. exists [], (flat_map (account_writes X blk trxTrace) acts).
    repeat split; auto. discriminate.
Qed.

Lemma indexNewAccounts_loop_performed X blk traces :
  forall d,
    performed d (fst (indexNewAccounts_loop X d blk traces))
              (flat_map (fun trxTrace =>
                           flat_map (account_writes X blk trxTrace)
                                    (ActionTraces trxTrace)) traces)
              (snd (indexNewAccounts_loop X d blk traces)).
Proof.
  induction traces as [|t traces IH]; intros d; simpl; [apply performed_nil|].
  pose proof (putNewAccounts_loop_performed X blk t (ActionTraces t) d) as P.
  destruct (putNewAccounts_loop X d blk t (ActionTraces t)) as [d1 [err|]];
    simpl in P |- *.
  - now apply performed_stop.
  - apply performed_then with d1; [exact P | apply IH].
Qed.

Lemma UpdateNowIrreversibleBlock_performed X d blk :
  performed d (fst (UpdateNowIrreversibleBlock X d blk)) (irreversible_writes X blk)
            (snd (UpdateNowIrreversibleBlock X d blk)).
Proof.
  unfold UpdateNowIrreversibleBlock, irreversible_writes.
  match goal with
  | |- context [put_plain d ?k ?v] =>
      pose proof (performed_put_plain d k v) as P1;
      destruct (put_plain d k v) as [d1 [err|]]
  end; simpl in P1 |- *.
  { now apply (performed_stop d d1 [_]). }
  apply (performed_then d d1 _ [_]); [exact P1|].
  match goal with
  | |- context [put_plain d1 ?k ?v] =>
      pose proof (performed_put_plain d1 k v) as P2;
      destruct (put_plain d1 k v) as [d2 [err|]]
  end; simpl in P2 |- *.
  { now apply (performed_stop d1 d2 [_]). }
  apply (performed_then d1 d2 _ [_]); [exact P2|].
  pose proof (indexNewAccounts_loop_performed X blk (TransactionTraces blk) d2) as P3.
  destruct (indexNewAccounts_loop X d2 blk (TransactionTraces blk)) as [d3 [err|]];
    simpl in P3 |- *.
  { now apply performed_stop. }
  apply performed_then with d3; [exact P3|].
  apply performed_put_plain.
Qed.

Lemma DB_Flush_ok d d' :
  DB_Flush d = (d', None) ->
  engine (db (store d')) = engine (db (store d)) /\
  compressor (store d') = compressor (store d) /\
  contents (db (store d')) = eventual (store d).
Proof.
  unfold DB_Flush. destruct (FlushPuts (store d)) as [s r] eqn:E.
  intros H; inversion H; subst. simpl.
  apply FlushPuts_ok in E. tauto.
Qed.

(** After writes that were all issued and a flush, reading the key of the
    last write, which the engine accepted, gives the value of that
    write. *)
Lemma last_write_readable d d' d'' ws k v :
  round_trips (compressor (store d)) ->
  performed d d' (ws ++ [(k, v)]) None ->
  DB_Flush d' = (d'', None) ->
  accepted (store d) (k, v) = true ->
  get_fault (engine (db (store d))) k = None ->
  value_fault (engine (db (store d))) k = None ->
  Get (store d'') k = Ok v.
Proof.
  intros RT (done & rest & E & (He & Hc & Hv) & _ & R) HF Hacc Hg Hvf.
  rewrite (R eq_refl), app_nil_r in E. subst done.
  apply DB_Flush_ok in HF. destruct HF as (He' & Hc' & Ht).
  rewrite Get_unfold, He', He, Hg, Hvf, Ht, Hv, Hc', Hc.
  rewrite staged_as_app. unfold staged_as at 2. simpl. rewrite Hacc. simpl.
  rewrite lookup_commit_last. apply RT.
Qed.


Lemma putBlock_block_cases X d blk :
  (snd (putBlock X d blk) = None -> snd (fst (putBlock X d blk)) = blk) /\
  (snd (putBlock X d blk) <> None ->
   snd (fst (putBlock X d blk)) = without_transactions blk).
Proof.
  unfold putBlock, getRefs. simpl.
  destruct (put_or _ d _ _) as [d1 [err|]]; simpl; split; intros H.
  - discriminate H.
  - reflexivity.
  - now destruct blk.
  - now contradiction H.
Qed.

(** X17. [putBlock] stores the block row with the block emptied of its three
    lists; the caller's block has them again when the write succeeded,
    and is left without them when it failed. *)
Theorem putBlock_restores_block_on_success_only X d blk :
  (snd (putBlock X d blk) = None -> snd (fst (putBlock X d blk)) = blk) /\
  (snd (putBlock X d blk) <> None ->
   snd (fst (putBlock X d blk)) = without_transactions blk).
Proof. apply putBlock_block_cases. Qed.

Lemma putBlock_restores_block_on_success_only_witness :
  snd (fst (putBlock demo_externals demo_db demo_block)) = demo_block /\
  snd (fst (putBlock demo_externals stuck_db demo_block)) =
    without_transactions demo_block.
Proof.
  split.
  - apply (proj1 (putBlock_restores_block_on_success_only
                    demo_externals demo_db demo_block)).
    reflexivity.
  - apply (proj2 (putBlock_restores_block_on_success_only
                    demo_externals stuck_db demo_block)).
    discriminate.
Defined.

(** X18. After a [PutBlock] that returned nil and a [Flush] that returned nil,
    the table is the one before with the accepted writes of the block
    committed in order, the caller's block is unchanged, and [Get] on the
    block's key returns the encoded block row, the one without the
    block's transactions. *)
Theorem PutBlock_Flush_Get X d blk d' blk' d'' :
  round_trips (compressor (store d)) ->
  PutBlock X d blk = (d', blk', None) ->
  DB_Flush d' = (d'', None) ->
  accepted (store d) (block_write X blk) = true ->
  get_fault (engine (db (store d))) (PackBlocksKey X (blk_Id blk)) = None ->
  value_fault (engine (db (store d))) (PackBlocksKey X (blk_Id blk)) = None ->
  Get (store d'') (PackBlocksKey X (blk_Id blk)) = Ok (MustProto X (block_row X blk)) /\
  contents (db (store d'')) =
    commit (staged_as (store d) (block_writes X d blk)) (eventual (store d)) /\
  blk' = blk.
Proof.
  intros RT HP HF Hacc Hg Hv.
  pose proof (PutBlock_performed X d blk) as P. rewrite HP in P. simpl in P.
  split; [|split].
  - unfold block_writes in P. rewrite !app_assoc in P.
    exact (last_write_readable d d' d'' _ _ _ RT P HF Hacc Hg Hv).
  - destruct P as (done & rest & E & (_ & _ & W) & _ & R).
    rewrite (R eq_refl), app_nil_r in E. subst done.
    apply DB_Flush_ok in HF. destruct HF as (_ & _ & Ht). now rewrite Ht.
  - unfold PutBlock in HP.
    destruct (putTransactions X d blk) as [d1 [e|]]; [discriminate|].
    destruct (putTransactionTraces X d1 blk) as [d2 [e|]]; [discriminate|].
    destruct (putImplicitTransactions X d2 blk) as [d3 [e|]]; [discriminate|].
    pose proof (proj1 (putBlock_block_cases X d3 blk)) as B.
    rewrite HP in B. now apply B.
Qed.

Lemma PutBlock_Flush_Get_witness :
  Get (store (fst (DB_Flush (fst (fst (PutBlock demo_externals demo_db demo_block))))))
      (PackBlocksKey demo_externals "b1") =
    Ok (MustProto demo_externals (block_row demo_externals demo_block)).
Proof.
  apply (proj1 (PutBlock_Flush_Get demo_externals demo_db demo_block
                  (fst (fst (PutBlock demo_externals demo_db demo_block)))
                  (snd (fst (PutBlock demo_externals demo_db demo_block)))
                  (fst (DB_Flush (fst (fst (PutBlock demo_externals demo_db demo_block)))))
                  ltac:(intro v; reflexivity)
                  eq_refl eq_refl eq_refl eq_refl eq_refl)).
Defined.

Example PutBlock_stops_at_failed_write :
  snd (PutBlock demo_externals stuck_db demo_block) =
    Some (Errorf_w "put block: unable to putTransactions"
            (Errorf_w "put trx: write to db" (Cause (ErrBadger 9)))) /\
  eventual (store (fst (fst (PutBlock demo_externals stuck_db demo_block)))) =
    eventual (store stuck_db).
Proof. split; reflexivity. Qed.


(** X20. After an [UpdateNowIrreversibleBlock] that returned nil and a
    [Flush] that returned nil, [Get] on the block's irreversible key
    returns the one byte 0x01, and the table is the one before with the
    accepted writes committed in order. *)
Theorem UpdateNowIrreversibleBlock_Flush_Get X d blk d' d'' :
  round_trips (compressor (store d)) ->
  UpdateNowIrreversibleBlock X d blk = (d', None) ->
  DB_Flush d' = (d'', None) ->
  accepted (store d) (PackIrrBlocksKey X (blk_Id blk), oneByte) = true ->
  get_fault (engine (db (store d))) (PackIrrBlocksKey X (blk_Id blk)) = None ->
  value_fault (engine (db (store d))) (PackIrrBlocksKey X (blk_Id blk)) = None ->
  Get (store d'') (PackIrrBlocksKey X (blk_Id blk)) = Ok oneByte /\
  contents (db (store d'')) =
    commit (staged_as (store d) (irreversible_writes X blk)) (eventual (store d)).
Proof.
  intros RT HP HF Hacc Hg Hv.
  pose proof (UpdateNowIrreversibleBlock_performed X d blk) as P.
  rewrite HP in P. simpl in P. split.
  - unfold irreversible_writes in P. rewrite !app_assoc in P.
    exact (last_write_readable d d' d'' _ _ _ RT P HF Hacc Hg Hv).
  - destruct P as (done & rest & E & (_ & _ & W) & _ & R).
    rewrite (R eq_refl), app_nil_r in E. subst done.
    apply DB_Flush_ok in HF. destruct HF as (_ & _ & Ht). now rewrite Ht.
Qed.

Lemma UpdateNowIrreversibleBlock_Flush_Get_witness :
  Get (store (fst (DB_Flush
         (fst (UpdateNowIrreversibleBlock demo_externals demo_db demo_block)))))
      (PackIrrBlocksKey demo_externals "b1") = Ok oneByte /\
  map fst (contents (db (store (fst (DB_Flush
         (fst (UpdateNowIrreversibleBlock demo_externals demo_db demo_block))))))) =
    [tagged Byte.x15 "name"; tagged Byte.x16 "b1"; tagged Byte.x17 "b1";
     tagged Byte.x18 "b1"].
Proof.
  destruct (UpdateNowIrreversibleBlock_Flush_Get demo_externals demo_db demo_block
              (fst (UpdateNowIrreversibleBlock demo_externals demo_db demo_block))
              (fst (DB_Flush
                 (fst (UpdateNowIrreversibleBlock demo_externals demo_db demo_block))))
              ltac:(intro v; reflexivity)
              eq_refl eq_refl eq_refl eq_refl eq_refl) as [H1 H2].
  split; [exact H1|]. rewrite H2. reflexivity.
Defined.




(** X4. When [Put] returns nil for an entry the engine does not refuse
    and the [FlushPuts] after it returns nil, the table is the one a flush
    would have left before the [Put], with the entry written into it, and
    the batch is empty: whether [Put] staged directly or went through the
    flush and the fresh batch, the writes staged before and this one are
    each committed once, in order; and [Get] on the key returns the
    value. *)
Theorem Put_then_FlushPuts_commits_every_write s k v s1 s2 :
  entry_fault (engine (db s)) (NewEntry k (Compress (compressor s) v)) = None ->
  Put s k v = (s1, None) ->
  FlushPuts s1 = (s2, None) ->
  contents (db s2) = upsert k (Compress (compressor s) v) (eventual s) /\
  pending (current_batch s2) = [] /\
  (round_trips (compressor s) ->
   get_fault (engine (db s)) k = None ->
   value_fault (engine (db s)) k = None ->
   Get s2 k = Ok v).
Proof.
  intros Hacc HP HF.
  pose proof (wrote_Put s k v) as (He & Hc & W). rewrite HP in He, Hc, W.
  simpl in He, Hc, W.
  unfold staged_as, accepted in W. simpl in W. rewrite Hacc in W. simpl in W.
  apply FlushPuts_ok in HF. destruct HF as (He2 & Hc2 & Ht & Hp).
  split; [now rewrite Ht, W|]. split; [exact Hp|].
  intros RT Hg Hv.
  rewrite Get_unfold, He2, He, Hg, Hv, Ht, W, lookup_upsert_same, Hc2, Hc.
  apply RT.
Qed.

Lemma Put_then_FlushPuts_commits_every_write_witness :
  contents (db (fst (FlushPuts (fst (Put full_store key_c val_3))))) =
    [(key_a, stored val_1); (key_b, stored val_2); (key_c, stored val_3)] /\
  Get (fst (FlushPuts (fst (Put full_store key_c val_3)))) key_c = Ok val_3 /\
  contents (db (fst (FlushPuts (fst (Put sized_store key_a val_4))))) =
    [(key_a, stored val_4); (key_b, stored val_2)].
Proof.
  destruct (Put_then_FlushPuts_commits_every_write full_store key_c val_3
              (fst (Put full_store key_c val_3))
              (fst (FlushPuts (fst (Put full_store key_c val_3))))
              eq_refl eq_refl eq_refl) as (H1 & _ & H3).
  destruct (Put_then_FlushPuts_commits_every_write sized_store key_a val_4
              (fst (Put sized_store key_a val_4))
              (fst (FlushPuts (fst (Put sized_store key_a val_4))))
              eq_refl eq_refl eq_refl) as (H4 & _ & _).
  split; [rewrite H1; reflexivity|].
  split; [apply H3; [intro x; reflexivity | reflexivity | reflexivity]|].
  rewrite H4. reflexivity.
Defined.
